(** * secvault: a shallow embedding of the kernel module [secvault.c]

    The module keeps [N_VAULTS] vaults in kernel memory.  Every vault is
    driven through two channels: the control device ([ioctl_handler]) and
    a character device per vault ([vault_open], [vault_release],
    [vault_llseek], [vault_read], [vault_write]).

    Conventions of the embedding (LP64 Linux, as the module is built):
    - [unsigned long] and [size_t] are 64-bit unsigned, [loff_t] and
      [ssize_t] are 64-bit signed, [uid_t] is 32-bit unsigned; values are
      kept in [Z] and every conversion that can wrap is written out;
    - a [char] is its bit pattern, a [Z] in [0, 256);
    - a heap buffer is a [list Z]; [NULL] is [None]; an access outside the
      buffer is undefined behaviour in C and makes the handler return
      [None];
    - what the kernel decides (whether [kmalloc], [cdev_alloc] and
      [cdev_add] succeed, who the caller is, whether a wait on the
      semaphore is interrupted) is an input, collected in [kenv]. *)

From Stdlib Require Import ZArith List Bool Lia.
Import ListNotations.
Local Open Scope Z_scope.

(** ** Constants of [common.h] and of the kernel *)

Definition N_VAULTS : Z := 4.
Definition KEYSIZE : Z := 10.
Definition MAX_DATA : Z := 1048576.
Definition MAJOR_NUM : Z := 231.

Definition EINTR : Z := 4.
Definition ENOMEM : Z := 12.
Definition EACCES : Z := 13.
Definition EINVAL : Z := 22.
Definition ERESTARTSYS : Z := 512.

Definition SEEK_SET : Z := 0.
Definition SEEK_CUR : Z := 1.
Definition SEEK_END : Z := 2.

(** ** Machine integers *)

(** Conversion to [unsigned long] / [size_t]. *)
Definition to_ulong (x : Z) : Z := x mod 2 ^ 64.

(** Conversion to [loff_t] / [ssize_t] (two's complement). *)
Definition to_loff (x : Z) : Z := (x + 2 ^ 63) mod 2 ^ 64 - 2 ^ 63.

(** Conversion to [uid_t]. *)
Definition to_uid (x : Z) : Z := x mod 2 ^ 32.

(** [MKDEV(ma, mi)]: twenty bits of minor number. *)
Definition MKDEV (ma mi : Z) : Z := Z.lor (Z.shiftl ma 20) mi.

(** ** Kernel collaborators *)

(** What happens to a caller that has to wait on a semaphore whose
    counter is zero: the holder releases it and hands it over, or a signal
    ends the wait. *)
Inductive wait_outcome : Type :=
| Woken
| Signalled.

(** [down_interruptible] on a counter: result code and new counter.  A
    positive counter is taken at once; only a caller that has to wait can
    be interrupted. *)
Definition down_interruptible (w : wait_outcome) (count : Z) : Z * Z :=
  if 0 <? count then (0, count - 1)
  else match w with
       | Woken => (0, count)
       | Signalled => (- EINTR, count)
       end.

(** [up] on a counter. *)
Definition up (count : Z) : Z := count + 1.

(** The inputs the kernel supplies to one call of a handler. *)
Record kenv : Type := mk_kenv {
  current_uid : Z;          (* what [get_current_uid ()] returns *)
  sem_wait : wait_outcome;  (* outcome of a wait in [down_interruptible] *)
  kmalloc_ok : bool;        (* [kmalloc] of a positive size succeeds *)
  cdev_alloc_ok : bool;     (* [cdev_alloc] succeeds *)
  cdev_add_ok : bool        (* [cdev_add] succeeds *)
}.

Definition get_current_uid (e : kenv) : Z := current_uid e.

(** [kmalloc (n, GFP_KERNEL) != NULL]: a request of zero bytes always
    yields the non-null [ZERO_SIZE_PTR]. *)
Definition kmalloc (e : kenv) (n : Z) : bool := (n =? 0) || kmalloc_ok e.

Definition len (l : list Z) : Z := Z.of_nat (length l).

(** [copy_from_user (buffer, user, n)], where [user] lists the bytes that
    are readable from the user pointer on: the readable bytes are copied,
    the rest of the kernel buffer is padded with zero bytes, and the
    number of bytes that could not be copied is returned. *)
Definition copy_from_user (user : list Z) (n : Z) : list Z * Z :=
  let got := Z.min n (len user) in
  (firstn (Z.to_nat got) user ++ repeat 0 (Z.to_nat (n - got)), n - got).

(** [copy_to_user (user, buffer, n)], where [room] is the number of bytes
    writable from the user pointer on: the bytes delivered to user space
    and the number of bytes that could not be copied. *)
Definition copy_to_user (room : Z) (buffer : list Z) (n : Z) : list Z * Z :=
  let put := Z.min n room in
  (firstn (Z.to_nat put) buffer, n - put).

(** [memcpy (buffer, data + off, n)]: the [n] bytes read, or [None] when
    the range leaves the allocation. *)
Definition memcpy_from (data : option (list Z)) (off n : Z) : option (list Z) :=
  if n =? 0 then Some []
  else match data with
       | None => None
       | Some d =>
           if (0 <=? off) && (off + n <=? len d)
           then Some (firstn (Z.to_nat n) (skipn (Z.to_nat off) d))
           else None
       end.

(** [memcpy (data + off, buffer, n)]: the allocation afterwards, or [None]
    when the range leaves it. *)
Definition memcpy_to (data : option (list Z)) (off : Z) (buffer : list Z) (n : Z)
  : option (option (list Z)) :=
  if n =? 0 then Some data
  else match data with
       | None => None
       | Some d =>
           if (0 <=? off) && (off + n <=? len d)
           then Some (Some (firstn (Z.to_nat off) d
                            ++ firstn (Z.to_nat n) buffer
                            ++ skipn (Z.to_nat (off + n)) d))
           else None
       end.

(** [memset (data, 0, n)]. *)
Definition memset_zero (data : option (list Z)) (n : Z) : option (option (list Z)) :=
  if n =? 0 then Some data
  else match data with
       | None => None
       | Some d =>
           if n <=? len d
           then Some (Some (repeat 0 (Z.to_nat n) ++ skipn (Z.to_nat n) d))
           else None
       end.

(** ** The vault *)

(** A driver object obtained from [cdev_alloc]; [cdev_live] tells whether
    [cdev_add] has made it reachable. *)
Record cdev : Type := mk_cdev { cdev_live : bool }.

Record vault_t : Type := mk_vault {
  key : list Z;
  data : option (list Z);
  driver : option cdev;
  sem : Z;
  size : Z;
  used_space : Z;
  number : Z;
  owner : Z;
  in_use : Z
}.

Definition set_key (k : list Z) (v : vault_t) : vault_t :=
  mk_vault k (data v) (driver v) (sem v) (size v) (used_space v) (number v) (owner v) (in_use v).
Definition set_data (d : option (list Z)) (v : vault_t) : vault_t :=
  mk_vault (key v) d (driver v) (sem v) (size v) (used_space v) (number v) (owner v) (in_use v).
Definition set_driver (c : option cdev) (v : vault_t) : vault_t :=
  mk_vault (key v) (data v) c (sem v) (size v) (used_space v) (number v) (owner v) (in_use v).
Definition set_sem (s : Z) (v : vault_t) : vault_t :=
  mk_vault (key v) (data v) (driver v) s (size v) (used_space v) (number v) (owner v) (in_use v).
Definition set_size (s : Z) (v : vault_t) : vault_t :=
  mk_vault (key v) (data v) (driver v) (sem v) s (used_space v) (number v) (owner v) (in_use v).
Definition set_used_space (u : Z) (v : vault_t) : vault_t :=
  mk_vault (key v) (data v) (driver v) (sem v) (size v) u (number v) (owner v) (in_use v).
Definition set_owner (o : Z) (v : vault_t) : vault_t :=
  mk_vault (key v) (data v) (driver v) (sem v) (size v) (used_space v) (number v) o (in_use v).
Definition set_in_use (b : Z) (v : vault_t) : vault_t :=
  mk_vault (key v) (data v) (driver v) (sem v) (size v) (used_space v) (number v) (owner v) b.

(** [down_interruptible (&vault->sem)]: result code and the vault with the
    new counter. *)
Definition down_sem (e : kenv) (v : vault_t) : Z * vault_t :=
  let (r, c) := down_interruptible (sem_wait e) (sem v) in (r, set_sem c v).

(** [up (&vault->sem)]. *)
Definition up_sem (v : vault_t) : vault_t := set_sem (up (sem v)) v.

(** [reset_vault]: [cdev_del] and [kfree] release what the vault holds. *)
Definition reset_vault (v : vault_t) : vault_t :=
  set_data None
    (set_driver None
       (set_owner (to_uid (-1))
          (set_used_space 0 (set_size 0 (set_in_use 0 v))))).

(** The array [vaults] as [mod_init] leaves it: [memset] to zero, then
    [data], [driver], [number], [in_use] and the semaphore of every slot. *)
Definition init_vault (i : Z) : vault_t :=
  mk_vault (repeat 0 (Z.to_nat KEYSIZE)) None None 1 0 0 (MKDEV MAJOR_NUM i) 0 0.

Definition mod_init : list vault_t := map init_vault [0; 1; 2; 3].

(** ** The data channel *)

Definition vault_open (e : kenv) (v : vault_t) : Z :=
  if negb (owner v =? get_current_uid e) then - EACCES else 0.

Definition vault_release (e : kenv) (v : vault_t) : Z :=
  if negb (owner v =? get_current_uid e) then - EACCES else 0.

(** The position [vault_llseek] computes in its [switch]; [None] is the
    [default] branch. *)
Definition seek_target (v : vault_t) (f_pos offset whence : Z) : option Z :=
  if whence =? SEEK_SET then Some offset
  else if whence =? SEEK_CUR then Some (to_loff (f_pos + offset))
  else if whence =? SEEK_END then Some (to_loff (to_ulong (size v - 1 - offset)))
  else None.

(** [vault_llseek]: the value returned, [file->f_pos] afterwards and the
    vault afterwards. *)
Definition vault_llseek (e : kenv) (v : vault_t) (f_pos offset whence : Z)
  : Z * Z * vault_t :=
  if negb (owner v =? get_current_uid e) then (- EACCES, f_pos, v)
  else
    let (r, v1) := down_sem e v in
    if negb (r =? 0) then (- ERESTARTSYS, f_pos, up_sem v1)
    else
      match seek_target v1 f_pos offset whence with
      | None => (- EINVAL, f_pos, up_sem v1)
      | Some new_offset =>
          if (new_offset <? 0) || (size v1 <=? to_ulong new_offset)
          then (- EINVAL, f_pos, up_sem v1)
          else (new_offset, new_offset, up_sem v1)
      end.

(** [key[key_idx]]; the index is within the key whenever the position is not
    negative, as [vault_llseek] and the kernel keep it. *)
Definition key_at (k : list Z) (idx : Z) : Z := nth (Z.to_nat idx) k 0.

(** The loop of [xor_buffer], from index [i] on. *)
Fixpoint xor_loop (i : Z) (buffer : list Z) (offset : Z) (k : list Z) : list Z :=
  match buffer with
  | [] => []
  | b :: rest =>
      Z.lxor b (key_at k (Z.rem (offset + i) KEYSIZE))
      :: xor_loop (i + 1) rest offset k
  end.

(** [xor_buffer (buffer, n, offset, key)]: the first [n] bytes of the
    buffer are transformed. *)
Definition xor_buffer (buffer : list Z) (n offset : Z) (k : list Z) : list Z :=
  xor_loop 0 (firstn (Z.to_nat n) buffer) offset k ++ skipn (Z.to_nat n) buffer.

(** [to_copy] as [vault_read] computes it. *)
Definition read_to_copy (v : vault_t) (n offset : Z) : Z :=
  let len_avail := to_ulong (used_space v - offset) in
  if len_avail <? n then len_avail else n.

(** [vault_read (file, user, n, &offset)], [room] being the number of
    bytes writable at [user]: the value returned, [*offset] afterwards,
    the bytes delivered to user space and the vault afterwards. *)
Definition vault_read (e : kenv) (v : vault_t) (room n offset : Z)
  : option (Z * Z * list Z * vault_t) :=
  if negb (owner v =? get_current_uid e) then Some (- EACCES, offset, [], v)
  else
    let (r, v1) := down_sem e v in
    if negb (r =? 0) then Some (- ERESTARTSYS, offset, [], up_sem v1)
    else
      let to_copy := read_to_copy v1 n offset in
      if negb (kmalloc e to_copy) then Some (- ENOMEM, offset, [], up_sem v1)
      else
        match memcpy_from (data v1) offset to_copy with
        | None => None
        | Some buffer =>
            let buffer := xor_buffer buffer to_copy offset (key v1) in
            let (out, not_copied) := copy_to_user room buffer to_copy in
            Some (to_loff (to_copy - not_copied),
                  to_loff (offset + (to_copy - not_copied)),
                  out, up_sem v1)
        end.

(** [to_copy] as [vault_write] computes it. *)
Definition write_to_copy (v : vault_t) (n offset : Z) : Z :=
  let len_avail := to_ulong (size v - offset) in
  if len_avail <? n then len_avail else n.

(** [vault_write (file, user, n, &offset)], [user] being the bytes
    readable at the user pointer: the value returned, [*offset]
    afterwards and the vault afterwards. *)
Definition vault_write (e : kenv) (v : vault_t) (user : list Z) (n offset : Z)
  : option (Z * Z * vault_t) :=
  if negb (owner v =? get_current_uid e) then Some (- EACCES, offset, v)
  else
    let (r, v1) := down_sem e v in
    if negb (r =? 0) then Some (- ERESTARTSYS, offset, up_sem v1)
    else
      let to_copy := write_to_copy v1 n offset in
      if negb (kmalloc e to_copy) then Some (- ENOMEM, offset, up_sem v1)
      else
        let (buffer, not_copied) := copy_from_user user to_copy in
        let buffer := xor_buffer buffer to_copy offset (key v1) in
        let max_written := to_ulong (offset + to_copy - not_copied) in
        let v2 := if used_space v1 <? max_written
                  then set_used_space max_written v1 else v1 in
        match memcpy_to (data v2) offset buffer to_copy with
        | None => None
        | Some d =>
            Some (to_loff (to_copy - not_copied),
                  to_loff (offset + (to_copy - not_copied)),
                  up_sem (set_data d v2))
        end.

(** ** The control channel *)

(** [struct msg_t]; [mkey] holds the [KEYSIZE + 1] bytes of [key]. *)
Record msg_t : Type := mk_msg {
  mkey : list Z;
  msize : Z;
  mdevice : Z
}.

(** [vaults[i] = v]. *)
Fixpoint store (pool : list vault_t) (i : nat) (v : vault_t) : list vault_t :=
  match pool, i with
  | [], _ => []
  | _ :: rest, O => v :: rest
  | x :: rest, S j => x :: store rest j v
  end.

(** The [switch] of [ioctl_handler] on the vault, the semaphore held:
    the value returned and the vault afterwards, [None] when [memset]
    leaves the allocation. *)
Definition ioctl_switch (e : kenv) (cmd : Z) (msg : msg_t) (v : vault_t)
  : option (Z * vault_t) :=
  if cmd =? 0 then
    if negb (in_use v =? 0) then Some (- EINVAL, up_sem v)
    else if (msize msg <? 1) || (MAX_DATA <? msize msg) then Some (- EINVAL, up_sem v)
    else if negb (cdev_alloc_ok e) then Some (- EINVAL, up_sem v)
    else
      let v1 := set_driver (Some (mk_cdev false)) v in
      if negb (cdev_add_ok e) then Some (- EINVAL, up_sem v1)
      else
        let v2 := set_driver (Some (mk_cdev true)) v1 in
        if negb (kmalloc e (msize msg)) then Some (- ENOMEM, up_sem (set_data None v2))
        else
          let v3 := set_owner (get_current_uid e)
                      (set_used_space 0
                         (set_size (msize msg) (set_in_use 1 v2))) in
          let v4 := set_key (firstn (Z.to_nat KEYSIZE) (mkey msg)) v3 in
          Some (0, up_sem (set_data (Some (repeat 0 (Z.to_nat (size v4)))) v4))
  else if cmd =? 1 then
    if in_use v =? 0 then Some (- EINVAL, up_sem v)
    else if negb (owner v =? get_current_uid e) then Some (- EACCES, up_sem v)
    else Some (0, up_sem (set_key (firstn (Z.to_nat KEYSIZE) (mkey msg)) v))
  else if cmd =? 5 then
    if in_use v =? 0 then Some (- EINVAL, up_sem v)
    else if negb (owner v =? get_current_uid e) then Some (- EACCES, up_sem v)
    else
      let v1 := set_used_space 0 v in
      match memset_zero (data v1) (size v1) with
      | None => None
      | Some d => Some (0, up_sem (set_data d v1))
      end
  else if cmd =? 3 then
    if in_use v =? 0 then Some (- EINVAL, up_sem v)
    else if negb (owner v =? get_current_uid e) then Some (- EACCES, up_sem v)
    else Some (0, up_sem (reset_vault v))
  else Some (- EINVAL, up_sem v).

(** [ioctl_handler (file, cmd, arg)], [msg] being the message that
    [copy_from_user] left in the local [struct msg_t] (its result, a count
    of bytes held in an [int], is never negative, so the test on it never
    fires; [mdevice] is an [unsigned int]): the value returned and the
    array [vaults] afterwards, [None] when a memory access leaves its
    allocation. *)
Definition ioctl_handler (e : kenv) (cmd : Z) (msg : msg_t) (vaults : list vault_t)
  : option (Z * list vault_t) :=
  if N_VAULTS <=? mdevice msg then Some (- EINVAL, vaults)
  else
    match nth_error vaults (Z.to_nat (mdevice msg)) with
    | None => None
    | Some vault =>
        let (r, v1) := down_sem e vault in
        if negb (r =? 0)
        then Some (- ERESTARTSYS, store vaults (Z.to_nat (mdevice msg)) (up_sem v1))
        else
          match ioctl_switch e cmd msg v1 with
          | None => None
          | Some (ret, v2) => Some (ret, store vaults (Z.to_nat (mdevice msg)) v2)
          end
    end.

(** ** Runs of the data channel *)

(** One [write] call: the caller's inputs, the readable user bytes, the
    length asked for and the position. *)
Record write_req : Type := mk_write_req {
  w_env : kenv;
  w_user : list Z;
  w_len : Z;
  w_offset : Z
}.

(** A sequence of [write] calls, each at its own position.  The trace
    lists, for the calls that wrote, the position and the count returned. *)
Fixpoint write_seq (v : vault_t) (reqs : list write_req)
  : option (list (Z * Z) * vault_t) :=
  match reqs with
  | [] => Some ([], v)
  | r :: rest =>
      match vault_write (w_env r) v (w_user r) (w_len r) (w_offset r) with
      | None => None
      | Some (ret, _, v1) =>
          match write_seq v1 rest with
          | None => None
          | Some (trace, v2) =>
              Some (if 0 <=? ret then (w_offset r, ret) :: trace else trace, v2)
          end
      end
  end.

(** The end of the byte range of a trace entry. *)
Definition written_end (w : Z * Z) : Z := fst w + snd w.

(** A buffer written in several [write] calls through one file position:
    every chunk is wholly readable and the call asks for all of it.  The
    result is the position and the vault afterwards. *)
Fixpoint write_chunks (e : kenv) (v : vault_t) (chunks : list (list Z)) (pos : Z)
  : option (Z * vault_t) :=
  match chunks with
  | [] => Some (pos, v)
  | c :: rest =>
      match vault_write e v c (len c) pos with
      | None => None
      | Some (_, pos1, v1) => write_chunks e v1 rest pos1
      end
  end.

(** A range read in several [read] calls through one file position, the
    user buffer of every call having room for all that is asked.  The
    result is what the calls delivered, in order, the position and the vault
    afterwards. *)
Fixpoint read_chunks (e : kenv) (v : vault_t) (lens : list Z) (pos : Z)
  : option (list Z * Z * vault_t) :=
  match lens with
  | [] => Some ([], pos, v)
  | n :: rest =>
      match vault_read e v n n pos with
      | None => None
      | Some (_, pos1, out, v1) =>
          match read_chunks e v1 rest pos1 with
          | None => None
          | Some (outs, pos2, v2) => Some (out ++ outs, pos2, v2)
          end
      end
  end.

Definition sum (l : list Z) : Z := fold_right Z.add 0 l.

(** ** Well-formed vaults *)

(** A vault in use whose semaphore is free: what [Create] establishes and
    every handler keeps while the position stays within the vault. *)
Record vault_ok (v : vault_t) : Prop := mk_vault_ok {
  ok_in_use : in_use v <> 0;
  ok_size : 1 <= size v <= MAX_DATA;
  ok_used : 0 <= used_space v <= size v;
  ok_data : exists d, data v = Some d /\ len d = size v;
  ok_sem : 0 < sem v
}.

(** ** Concrete callers and states *)

Definition demo_key : list Z := [65; 66; 67; 68; 69; 70; 71; 72; 73; 74].

(** Two users and root, with every kernel service succeeding. *)
Definition alice : kenv := mk_kenv 1000 Woken true true true.
Definition mallory : kenv := mk_kenv 1001 Woken true true true.
Definition root : kenv := mk_kenv 0 Woken true true true.

(** Alice when [kmalloc] fails. *)
Definition alice_no_memory : kenv := mk_kenv 1000 Woken false true true.

(** Alice when a signal ends her wait on the semaphore. *)
Definition alice_signalled : kenv := mk_kenv 1000 Signalled true true true.

(** Control messages for vault 0. *)
Definition msg16 : msg_t := mk_msg (demo_key ++ [0]) 16 0.
Definition msg100 : msg_t := mk_msg (demo_key ++ [0]) 100 0.
Definition msg10 : msg_t := mk_msg (demo_key ++ [0]) 10 0.

(** Vault 0 as Alice's [Create] of sixteen bytes leaves it. *)
Definition vault16 : vault_t :=
  mk_vault demo_key (Some (repeat 0 16)) (Some (mk_cdev true)) 1 16 0
    (MKDEV MAJOR_NUM 0) 1000 1.

(** The bytes of HELLOWOR and their image under the key at position 0. *)
Definition hello8 : list Z := [72; 69; 76; 76; 79; 87; 79; 82].
Definition hello8_enc : list Z := [9; 7; 15; 8; 10; 17; 8; 26].

(** [vault16] after HELLOWOR has been written at position 0. *)
Definition vault16_hello : vault_t :=
  set_used_space 8 (set_data (Some (hello8_enc ++ repeat 0 8)) vault16).

(** [vault16] after the five bytes HELLO have been written at position 0. *)
Definition vault16_five : vault_t :=
  set_used_space 5 (set_data (Some (firstn 5 hello8_enc ++ repeat 0 11)) vault16).

(** Vault 0 as Alice's [Create] of ten bytes leaves it. *)
Definition vault10 : vault_t :=
  mk_vault demo_key (Some (repeat 0 10)) (Some (mk_cdev true)) 1 10 0
    (MKDEV MAJOR_NUM 0) 1000 1.

(** Vault 0 of a fresh module after a [Create] that ran out of memory. *)
Definition vault_half_created : vault_t :=
  set_driver (Some (mk_cdev true)) (init_vault 0).

(** A fresh module in which another call holds the semaphore of vault 0. *)
Definition vaults_busy : list vault_t :=
  store mod_init 0 (snd (down_sem alice (init_vault 0))).

(** The position of a seek as the specification words it, in unbounded
    integers: [offset], [f_pos + offset] or [size - 1 - offset].  It is
    compared below with [seek_target], which follows the C arithmetic. *)
Definition seek_position (v : vault_t) (f_pos offset whence : Z) : Z :=
  if whence =? SEEK_SET then offset
  else if whence =? SEEK_CUR then f_pos + offset
  else size v - 1 - offset.

(** ** The end of the module *)

(** The loop of [mod_exit] over the array [vaults]. *)
Definition mod_exit (vaults : list vault_t) : list vault_t := map reset_vault vaults.

(** ** A file on the data channel *)

(** The calls a process makes on an open vault device. *)
Inductive file_op : Type :=
| op_llseek (offset whence : Z)
| op_read (room n : Z)
| op_write (user : list Z) (n : Z).

(** One call on a file whose position is [f_pos]: the value returned, the
    position and the vault afterwards. *)
Definition file_call (e : kenv) (v : vault_t) (f_pos : Z) (op : file_op)
  : option (Z * Z * vault_t) :=
  match op with
  | op_llseek offset whence => Some (vault_llseek e v f_pos offset whence)
  | op_read room n =>
      match vault_read e v room n f_pos with
      | None => None
      | Some (ret, pos, _, v1) => Some (ret, pos, v1)
      end
  | op_write user n => vault_write e v user n f_pos
  end.

(** A sequence of calls on one open file, each with its own kernel
    inputs: the position and the vault afterwards, [None] when a call
    leaves the buffer. *)
Fixpoint file_run (v : vault_t) (f_pos : Z) (calls : list (kenv * file_op))
  : option (Z * vault_t) :=
  match calls with
  | [] => Some (f_pos, v)
  | (e, op) :: rest =>
      match file_call e v f_pos op with
      | None => None
      | Some (_, pos, v1) => file_run v1 pos rest
      end
  end.

(** Arguments as the system calls pass them: lengths are not negative
    and below [2 ^ 63], offsets are 64-bit. *)
Definition file_op_ok (op : file_op) : Prop :=
  match op with
  | op_llseek offset whence => - 2 ^ 63 <= offset < 2 ^ 63
  | op_read room n => 0 <= room /\ 0 <= n < 2 ^ 63
  | op_write user n => 0 <= n < 2 ^ 63
  end.

(** ** The array of vaults under control commands *)

(** A vault that is not in use: no buffer, no size, no used space, its
    semaphore free. *)
Definition vault_free (v : vault_t) : Prop :=
  in_use v = 0 /\ data v = None /\ size v = 0 /\ used_space v = 0 /\ 0 < sem v.

(** Every vault of the array is free or well formed. *)
Definition vaults_ok (vaults : list vault_t) : Prop :=
  length vaults = Z.to_nat N_VAULTS /\
  Forall (fun v => vault_free v \/ vault_ok v) vaults.

(** A sequence of calls of [ioctl_handler], each with its own kernel
    inputs, command code and message. *)
Fixpoint ioctl_run (vaults : list vault_t) (calls : list (kenv * Z * msg_t))
  : option (list vault_t) :=
  match calls with
  | [] => Some vaults
  | (e, cmd, msg) :: rest =>
      match ioctl_handler e cmd msg vaults with
      | None => None
      | Some (_, vaults1) => ioctl_run vaults1 rest
      end
  end.

(** The fields of a vault that a command that fails never changes. *)
Definition same_identity (v v' : vault_t) : Prop :=
  in_use v' = in_use v /\ owner v' = owner v /\ size v' = size v /\
  used_space v' = used_space v /\ key v' = key v /\ number v' = number v.

(** ** The control program [svctl.c] *)

Module Svctl.

(** [enum vault_cmd] of [common.h]. *)
Inductive vault_cmd : Type :=
| CREATE
| CHANGE_KEY
| ERASE
| DELETE.

Record options_t : Type := mk_options {
  cmd : vault_cmd;
  size : Z;
  vault_id : Z
}.

Definition UINT_MAX : Z := 2 ^ 32 - 1.

(** Conversion to [uint8_t] and to [uint16_t]. *)
Definition to_uint8 (x : Z) : Z := x mod 2 ^ 8.
Definition to_uint16 (x : Z) : Z := x mod 2 ^ 16.

(** What the C library reports to [parse_arguments]: [strtol] gives a
    value and leaves [endptr] at the end of the string or not. *)
Record strtol_result : Type := mk_strtol {
  value : Z;
  at_end : bool
}.

(** One result of [getopt (argc, argv, "c:ked")] other than [-1]: an
    option letter, for [c] with what [strtol] makes of [optarg], or ['?']. *)
Inductive getopt_result : Type :=
| opt_c (parsed : strtol_result)
| opt_k
| opt_e
| opt_d
| opt_other.

(** The [while] loop of [parse_arguments] over the results of [getopt];
    [None] is [usage ()], which ends the program. *)
Fixpoint getopt_loop (opts : list getopt_result) (parsed_cmd : bool)
  (options : options_t) : option (bool * options_t) :=
  match opts with
  | [] => Some (parsed_cmd, options)
  | c :: rest =>
      if parsed_cmd then None
      else
        match c with
        | opt_c parsed =>
            let options := mk_options CREATE (size options) (vault_id options) in
            if negb (at_end parsed) then None
            else if (value parsed <? 1) || (MAX_DATA <? value parsed) then None
            else getopt_loop rest true
                   (mk_options (cmd options) (to_ulong (value parsed)) (vault_id options))
        | opt_k =>
            getopt_loop rest true (mk_options CHANGE_KEY (size options) (vault_id options))
        | opt_e =>
            getopt_loop rest true (mk_options ERASE (size options) (vault_id options))
        | opt_d =>
            getopt_loop rest true (mk_options DELETE (size options) (vault_id options))
        | opt_other => None
        end
  end.

(** [parse_arguments]: [opts] are the results of [getopt] in order and
    [args] what [strtol] makes of each argument from [optind] on. *)
Definition parse_arguments (opts : list getopt_result) (args : list strtol_result)
  (options : options_t) : option options_t :=
  match getopt_loop opts false options with
  | None => None
  | Some (parsed_cmd, options) =>
      if negb parsed_cmd then None
      else
        match args with
        | [parsed] =>
            if negb (at_end parsed) then None
            else if (value parsed <? 0) || (UINT_MAX <? value parsed)
                    || (N_VAULTS <=? value parsed) then None
            else Some (mk_options (cmd options) (size options)
                         (value parsed mod 2 ^ 32))
        | _ => None
        end
  end.

(** [read_user_key (buffer)]: [input] is the line [getline] returns, or
    [None] when it returns [-1]; the result is the buffer afterwards, or
    [None] when the program ends.  [getline] never returns 0; [memcpy]
    would then be asked for [(size_t) -1] bytes. *)
Definition read_user_key (input : option (list Z)) (buffer : list Z)
  : option (list Z) :=
  match input with
  | None => None
  | Some line =>
      let len_line := len line in
      if KEYSIZE <? len_line - 1 then None
      else if len_line =? 0 then None
      else
        Some (firstn (Z.to_nat (len_line - 1)) line
              ++ repeat 0 (Z.to_nat (KEYSIZE - (len_line - 1)))
              ++ skipn (Z.to_nat KEYSIZE) buffer)
  end.

(** The four requests: the command code and the message handed to
    [ioctl], or [None] when the program ends first.  [stack] is what the
    local [struct msg_t] holds before it is filled in; the arguments are
    converted to [uint8_t] and [uint16_t] as the prototypes say. *)
Definition sv_create (vault_id size : Z) (input : option (list Z)) (stack : msg_t)
  : option (Z * msg_t) :=
  let vault_id := to_uint8 vault_id in
  let size := to_uint16 size in
  match read_user_key input (mkey stack) with
  | None => None
  | Some k => Some (0, mk_msg k size vault_id)
  end.

Definition sv_change_key (vault_id : Z) (input : option (list Z)) (stack : msg_t)
  : option (Z * msg_t) :=
  let vault_id := to_uint8 vault_id in
  match read_user_key input (mkey stack) with
  | None => None
  | Some k => Some (1, mk_msg k (msize stack) vault_id)
  end.

Definition sv_erase (vault_id : Z) (stack : msg_t) : option (Z * msg_t) :=
  let vault_id := to_uint8 vault_id in
  Some (5, mk_msg (mkey stack) (msize stack) vault_id).

Definition sv_delete (vault_id : Z) (stack : msg_t) : option (Z * msg_t) :=
  let vault_id := to_uint8 vault_id in
  Some (3, mk_msg (mkey stack) (msize stack) vault_id).

(** [main] up to its call of [ioctl]: the request it makes, or [None]
    when the program ends before.  [open_ok] tells whether [open] of the
    control device succeeds. *)
Definition main (opts : list getopt_result) (args : list strtol_result)
  (open_ok : bool) (input : option (list Z)) (stack : msg_t)
  : option (Z * msg_t) :=
  match parse_arguments opts args (mk_options CREATE 0 0) with
  | None => None
  | Some options =>
      if negb open_ok then None
      else
        match cmd options with
        | CREATE => sv_create (vault_id options) (size options) input stack
        | CHANGE_KEY => sv_change_key (vault_id options) input stack
        | ERASE => sv_erase (vault_id options) stack
        | DELETE => sv_delete (vault_id options) stack
        end
  end.

End Svctl.

(** ** Buffers *)

(** The buffer [d] with the bytes [buf] stored from index [p] on. *)
Definition splice (d : list Z) (p : nat) (buf : list Z) : list Z :=
  firstn p d ++ buf ++ skipn (p + length buf) d.

(** ** Basic facts *)

Lemma to_ulong_small x : 0 <= x < 2 ^ 64 -> to_ulong x = x.
Proof. intros H. unfold to_ulong. apply Z.mod_small. exact H. Qed.

Lemma to_loff_small x : - 2 ^ 63 <= x < 2 ^ 63 -> to_loff x = x.
Proof.
  intros H. unfold to_loff. rewrite Z.mod_small; lia.
Qed.

Lemma to_loff_to_ulong x : to_loff (to_ulong x) = to_loff x.
Proof.
  unfold to_loff, to_ulong.
  rewrite Z.add_mod_idemp_l by lia. reflexivity.
Qed.

Lemma down_sem_free e v :
  0 < sem v -> down_sem e v = (0, set_sem (sem v - 1) v).
Proof.
  intros H. unfold down_sem, down_interruptible.
  destruct (0 <? sem v) eqn:E; [reflexivity | apply Z.ltb_ge in E; lia].
Qed.

Lemma up_sem_down v s : up_sem (set_sem (s - 1) v) = set_sem s v.
Proof.
  unfold up_sem, up, set_sem. simpl. f_equal. lia.
Qed.

Lemma set_sem_same v : set_sem (sem v) v = v.
Proof. destruct v; reflexivity. Qed.

Lemma store_same (pool : list vault_t) (i : nat) (v : vault_t) :
  nth_error pool i = Some v -> store pool i v = pool.
Proof.
  revert i. induction pool as [|x rest IH]; intros [|j] H; simpl in *;
    try discriminate; try reflexivity.
  - injection H as ->. reflexivity.
  - rewrite (IH j H). reflexivity.
Qed.

Lemma nth_error_store (pool : list vault_t) (i j : nat) (v : vault_t) :
  nth_error (store pool i v) j =
  if Nat.eqb i j then option_map (fun _ => v) (nth_error pool j)
  else nth_error pool j.
Proof.
  revert i j. induction pool as [|x rest IH]; intros [|i] [|j]; simpl;
    try reflexivity.
  - destruct (Nat.eqb i j); reflexivity.
  - apply IH.
Qed.

Lemma down_up_free e v :
  0 < sem v -> up_sem (snd (down_sem e v)) = v /\ fst (down_sem e v) = 0.
Proof.
  intros H. rewrite (down_sem_free e v H). simpl.
  rewrite up_sem_down. split; [apply set_sem_same | reflexivity].
Qed.

(** ** The control channel: unknown commands *)

(** With the semaphore free, a command code outside 0, 1, 5 and 3 is
    answered with [-EINVAL] and the array of vaults is as before. *)
Lemma ioctl_unknown_command_acquired e cmd msg vaults v :
  0 <= mdevice msg < N_VAULTS ->
  nth_error vaults (Z.to_nat (mdevice msg)) = Some v ->
  0 < sem v ->
  cmd <> 0 -> cmd <> 1 -> cmd <> 5 -> cmd <> 3 ->
  ioctl_handler e cmd msg vaults = Some (- EINVAL, vaults).
Proof.
  intros Hdev Hv Hsem H0 H1 H5 H3.
  unfold ioctl_handler.
  destruct (N_VAULTS <=? mdevice msg) eqn:E; [apply Z.leb_le in E; lia|].
  rewrite Hv.
  destruct (down_up_free e v Hsem) as [Hup Hr].
  destruct (down_sem e v) as [r v1]. simpl in Hup, Hr. subst r. simpl.
  unfold ioctl_switch.
  destruct (cmd =? 0) eqn:C0; [apply Z.eqb_eq in C0; contradiction|].
  destruct (cmd =? 1) eqn:C1; [apply Z.eqb_eq in C1; contradiction|].
  destruct (cmd =? 5) eqn:C5; [apply Z.eqb_eq in C5; contradiction|].
  destruct (cmd =? 3) eqn:C3; [apply Z.eqb_eq in C3; contradiction|].
  rewrite Hup, (store_same _ _ _ Hv). reflexivity.
Qed.

(** C10, at the failing input: vault 0 is held by another call, Alice
    sends the unknown command code 2 for vault 0 and a signal ends her
    wait.  The handler answers [-ERESTARTSYS] after calling [up] on a
    semaphore it never obtained: the counter of vault 0 goes from 0 to 1,
    so the array of vaults is not as it was before the call. *)
Theorem ioctl_unknown_command_interrupted :
  nth_error vaults_busy 0 = Some (set_sem 0 (init_vault 0)) /\
  ioctl_handler alice_signalled 2 msg16 vaults_busy
  = Some (- ERESTARTSYS, store vaults_busy 0 (set_sem 1 (init_vault 0))) /\
  store vaults_busy 0 (set_sem 1 (init_vault 0)) <> vaults_busy.
Proof.
  split; [reflexivity|]. split; [reflexivity|]. discriminate.
Qed.

(** ** Create without memory *)

(** C4, at the failing input: on a fresh module Alice asks for a vault of
    sixteen bytes and [kmalloc] of the data buffer fails.  The handler
    answers [-ENOMEM]; the vault is not in use, but its [driver] field,
    [NULL] before the call, now holds the driver object that [cdev_add]
    made live. *)
Theorem create_without_memory_keeps_driver :
  ioctl_handler alice_no_memory 0 msg16 mod_init
  = Some (- ENOMEM, store mod_init 0 vault_half_created) /\
  in_use vault_half_created = 0 /\
  driver (init_vault 0) = None /\
  driver vault_half_created = Some (mk_cdev true) /\
  vault_half_created <> init_vault 0.
Proof.
  repeat split; try reflexivity. discriminate.
Qed.

(** ** The owner of a vault that is not in use *)

(** A vault that [reset_vault] has cleared refuses every caller whose
    identity is a valid one, that is, not [(uid_t) -1]; the handlers of
    the data channel never look at [in_use]. *)
Lemma data_channel_after_reset e v f_pos offset whence room n user :
  get_current_uid e <> to_uid (-1) ->
  let r := reset_vault v in
  in_use r = 0 /\
  vault_open e r = - EACCES /\
  vault_release e r = - EACCES /\
  vault_llseek e r f_pos offset whence = (- EACCES, f_pos, r) /\
  vault_read e r room n offset = Some (- EACCES, offset, [], r) /\
  vault_write e r user n offset = Some (- EACCES, offset, r).
Proof.
  intros Hid r.
  assert (Ho : (owner r =? get_current_uid e) = false).
  { apply Z.eqb_neq. subst r. simpl. congruence. }
  unfold vault_open, vault_release, vault_llseek, vault_read, vault_write.
  rewrite Ho. simpl. repeat split; reflexivity.
Qed.

(** C9, at the failing input: [mod_init] clears the array with [memset]
    and never stores the sentinel, so a vault that was never created has
    owner 0.  After a [Create] that ran out of memory the vault is not in
    use and its device is live; root, whose identity is 0, then opens it,
    reads from it and writes to it without [-EACCES]. *)
Theorem data_channel_open_to_root_before_create :
  nth_error mod_init 0 = Some (init_vault 0) /\
  owner (init_vault 0) = 0 /\
  ioctl_handler alice_no_memory 0 msg16 mod_init
  = Some (- ENOMEM, store mod_init 0 vault_half_created) /\
  in_use vault_half_created = 0 /\
  vault_open root vault_half_created = 0 /\
  vault_release root vault_half_created = 0 /\
  vault_read root vault_half_created 4 4 0 = Some (0, 0, [], vault_half_created) /\
  vault_write root vault_half_created [1; 2] 2 0 = Some (0, 0, vault_half_created).
Proof.
  repeat split; reflexivity.
Qed.

(** ** Reading beyond the used length *)

(** When the position lies beyond [used_space], the unsigned difference
    wraps and [to_copy] is the whole length asked for. *)
Lemma read_to_copy_beyond_used v n offset :
  0 <= used_space v < offset -> offset < 2 ^ 63 -> 0 <= n < 2 ^ 63 ->
  read_to_copy v n offset = n.
Proof.
  intros Hu Ho Hn. unfold read_to_copy, to_ulong.
  destruct (_ <? n) eqn:E; [|reflexivity].
  apply Z.ltb_lt in E. exfalso.
  revert E. Z.div_mod_to_equations. lia.
Qed.

(** C2, at the failing input: Alice writes the five bytes HELLO into her
    vault of sixteen bytes, seeks to position 8 and reads four bytes.
    [used_space] is 5, the position is 8; the handler takes [to_copy] to
    be 4, returns 4 and delivers four bytes from beyond [used_space]
    (the zero bytes of the buffer under the key, that is, key bytes 8, 9,
    0 and 1). *)
Theorem read_beyond_used_space :
  vault_write alice vault16 hello8 5 0 = Some (5, 5, vault16_five) /\
  used_space vault16_five = 5 /\
  vault_llseek alice vault16_five 5 8 SEEK_SET = (8, 8, vault16_five) /\
  read_to_copy vault16_five 4 8 = 4 /\
  vault_read alice vault16_five 4 4 8 = Some (4, 12, [73; 74; 65; 66], vault16_five).
Proof.
  repeat split; reflexivity.
Qed.

(** ** A short copy from user space *)

(** C3, at the failing input: Alice's vault holds HELLOWOR at position
    0; she writes eight bytes at position 0 from a user buffer of which
    only three bytes are readable.  The handler returns 3 and leaves
    [used_space] at 8, but [memcpy] stores all eight bytes of the kernel
    buffer: the bytes at positions 3 to 7, beyond what was delivered, are
    replaced by the zero padding under the key. *)
Theorem short_copy_in_overwrites_tail :
  data vault16_hello = Some ([9; 7; 15] ++ [8; 10; 17; 8; 26] ++ repeat 0 8) /\
  copy_from_user [88; 89; 90] 8 = ([88; 89; 90; 0; 0; 0; 0; 0], 5) /\
  vault_write alice vault16_hello [88; 89; 90] 8 0
  = Some (3, 3, set_data (Some ([25; 27; 25] ++ [68; 69; 70; 71; 72] ++ repeat 0 8))
                  vault16_hello).
Proof.
  repeat split; reflexivity.
Qed.

(** ** Writing beyond the capacity *)

(** C7, at the failing input: Alice creates vault 0 with a hundred bytes,
    seeks to position 50, deletes the vault and creates it again with ten
    bytes; the open file keeps position 50.  A write of four bytes there
    takes [to_copy] to be 4, not 0, and [memcpy] leaves the buffer of ten
    bytes; a write of no bytes there returns 0 and raises [used_space] to
    50, above the size of 10. *)
Theorem write_beyond_capacity :
  (exists v100,
     ioctl_handler alice 0 msg100 mod_init = Some (0, store mod_init 0 v100) /\
     vault_llseek alice v100 0 50 SEEK_SET = (50, 50, v100) /\
     ioctl_handler alice 3 msg100 (store mod_init 0 v100)
     = Some (0, store mod_init 0 (reset_vault v100)) /\
     ioctl_handler alice 0 msg10 (store mod_init 0 (reset_vault v100))
     = Some (0, store mod_init 0 vault10)) /\
  size vault10 = 10 /\
  write_to_copy vault10 4 50 = 4 /\
  vault_write alice vault10 [1; 2; 3; 4] 4 50 = None /\
  vault_write alice vault10 [] 0 50 = Some (0, 50, set_used_space 50 vault10) /\
  size (set_used_space 50 vault10) < used_space (set_used_space 50 vault10).
Proof.
  split.
  - eexists. split; [vm_compute; reflexivity|].
    split; [reflexivity|]. split; reflexivity.
  - repeat split; reflexivity.
Qed.

(** ** Callers other than the owner *)




(** ** Seeking *)

(** C8: for the owner, once the semaphore is obtained, [vault_llseek]
    computes [offset] for [SEEK_SET], [f_pos + offset] for [SEEK_CUR] and
    [size - 1 - offset] for [SEEK_END]; when that position is negative or
    not below [size] it returns [-EINVAL] and leaves the file position,
    and otherwise it stores the position in the file and returns it. *)
Theorem vault_llseek_position e v f_pos offset whence :
  owner v = get_current_uid e ->
  fst (down_sem e v) = 0 ->
  0 <= size v <= 2 ^ 63 ->
  0 <= f_pos < 2 ^ 63 ->
  - 2 ^ 63 <= offset < 2 ^ 63 ->
  whence = SEEK_SET \/ whence = SEEK_CUR \/ whence = SEEK_END ->
  let new := seek_position v f_pos offset whence in
  let v' := up_sem (snd (down_sem e v)) in
  (new < 0 \/ size v <= new ->
   vault_llseek e v f_pos offset whence = (- EINVAL, f_pos, v')) /\
  (0 <= new < size v ->
   vault_llseek e v f_pos offset whence = (new, new, v')).
Proof.
  intros Hown Hacq Hsize Hpos Hoff Hwh new v'.
  assert (Hsz : size (snd (down_sem e v)) = size v).
  { unfold down_sem. destruct (down_interruptible _ _). reflexivity. }
  assert (Htarget : exists t, seek_target (snd (down_sem e v)) f_pos offset whence = Some t
            /\ ((new < 0 \/ size v <= new) -> (t <? 0) || (size v <=? to_ulong t) = true)
            /\ (0 <= new < size v -> t = new /\ (t <? 0) || (size v <=? to_ulong t) = false)).
  { unfold seek_target, seek_position in *. rewrite Hsz.
    destruct Hwh as [-> | [-> | ->]]; simpl in *; subst new; eexists; (split; [reflexivity|]).
    - split.
      + intros [H | H].
        * apply orb_true_iff. left. apply Z.ltb_lt. exact H.
        * apply orb_true_iff.
          destruct (Z.ltb_spec offset 0); [left; reflexivity | right].
          apply Z.leb_le. rewrite to_ulong_small by lia. exact H.
      + intros H. split; [reflexivity|].
        apply orb_false_iff. split; [apply Z.ltb_ge; lia|].
        apply Z.leb_gt. rewrite to_ulong_small by lia. lia.
    - split.
      + intros H. apply orb_true_iff.
        destruct (Z.ltb_spec (to_loff (f_pos + offset)) 0) as [Hn | Hn];
          [left; reflexivity | right].
        apply Z.leb_le.
        assert (Hlt : f_pos + offset < 2 ^ 63).
        { destruct (Z.lt_ge_cases (f_pos + offset) (2 ^ 63)) as [Hc | Hc]; [exact Hc|].
          exfalso. revert Hn. unfold to_loff. Z.div_mod_to_equations. lia. }
        rewrite to_loff_small in * by lia.
        rewrite to_ulong_small by lia. lia.
      + intros H. rewrite to_loff_small by lia. split; [reflexivity|].
        apply orb_false_iff. split; [apply Z.ltb_ge; lia|].
        apply Z.leb_gt. rewrite to_ulong_small by lia. lia.
    - rewrite to_loff_to_ulong. split.
      + intros H. apply orb_true_iff.
        destruct (Z.ltb_spec (to_loff (size v - 1 - offset)) 0) as [Hn | Hn];
          [left; reflexivity | right].
        apply Z.leb_le.
        assert (Hlt : size v - 1 - offset < 2 ^ 63).
        { destruct (Z.lt_ge_cases (size v - 1 - offset) (2 ^ 63)) as [Hc | Hc]; [exact Hc|].
          exfalso. revert Hn. unfold to_loff. Z.div_mod_to_equations. lia. }
        rewrite to_loff_small in * by lia.
        rewrite to_ulong_small by lia. lia.
      + intros H. rewrite to_loff_small by lia. split; [reflexivity|].
        apply orb_false_iff. split; [apply Z.ltb_ge; lia|].
        apply Z.leb_gt. rewrite to_ulong_small by lia. lia. }
  destruct Htarget as [t [Ht [Hbad Hgood]]].
  unfold vault_llseek.
  assert (Ho : (owner v =? get_current_uid e) = true) by (apply Z.eqb_eq; exact Hown).
  rewrite Ho. simpl.
  subst v'. destruct (down_sem e v) as [r v1]. simpl in *. subst r. simpl.
  rewrite Ht, Hsz.
  split.
  - intros H. rewrite (Hbad H). reflexivity.
  - intros H. destruct (Hgood H) as [-> ->]. reflexivity.
Qed.

Lemma vault_llseek_position_witness :
  vault_llseek alice vault16 3 5 SEEK_END = (10, 10, vault16) /\
  vault_llseek alice vault16 3 (-4) SEEK_CUR = (- EINVAL, 3, vault16).
Proof.
  split.
  - apply (vault_llseek_position alice vault16 3 5 SEEK_END);
      try reflexivity; try (right; right; reflexivity);
      vm_compute; try (split; discriminate); try (split; [discriminate | reflexivity]).
  - apply (vault_llseek_position alice vault16 3 (-4) SEEK_CUR);
      try reflexivity; try (right; left; reflexivity);
      vm_compute; try (split; discriminate); try (split; [discriminate | reflexivity]);
      try (left; reflexivity).
Defined.

(** ** The used length *)

Lemma used_space_down_sem e v : used_space (snd (down_sem e v)) = used_space v.
Proof. unfold down_sem. destruct (down_interruptible _ _). reflexivity. Qed.

Lemma fold_max_shift (l : list Z) (u x : Z) :
  fold_right Z.max (Z.max u x) l = Z.max x (fold_right Z.max u l).
Proof.
  induction l as [|y l IH]; simpl; [lia | rewrite IH; lia].
Qed.

(** What a [write] call returns and what it does to [used_space]. *)
Lemma vault_write_used_space e v user n offset ret pos' v' :
  vault_write e v user n offset = Some (ret, pos', v') ->
  (ret < 0 /\ used_space v' = used_space v) \/
  (exists to_copy got,
      to_copy = write_to_copy v n offset /\
      got = Z.min to_copy (len user) /\
      ret = to_loff got /\
      used_space v' = Z.max (used_space v) (to_ulong (offset + got))).
Proof.
  unfold vault_write.
  destruct (negb (owner v =? get_current_uid e)).
  { intros H. injection H as <- _ <-. left. split; [reflexivity | reflexivity]. }
  pose proof (used_space_down_sem e v) as Hu.
  assert (Hs : size (snd (down_sem e v)) = size v).
  { unfold down_sem. destruct (down_interruptible _ _). reflexivity. }
  destruct (down_sem e v) as [r v1]. simpl in Hu, Hs.
  destruct (negb (r =? 0)).
  { intros H. injection H as <- _ <-. left. split; [reflexivity | exact Hu]. }
  assert (Htc : write_to_copy v1 n offset = write_to_copy v n offset).
  { unfold write_to_copy. rewrite Hs. reflexivity. }
  rewrite Htc.
  destruct (negb (kmalloc e (write_to_copy v n offset))).
  { intros H. injection H as <- _ <-. left. split; [reflexivity | exact Hu]. }
  unfold copy_from_user.
  set (tc := write_to_copy v n offset).
  set (got := Z.min tc (len user)).
  replace (offset + tc - (tc - got)) with (offset + got) by lia.
  replace (tc - (tc - got)) with got by lia.
  destruct (memcpy_to _ _ _ _) as [d|] eqn:Hm; [|discriminate].
  intros H. injection H as <- _ <-. right.
  exists tc, got. repeat split.
  destruct (used_space v1 <? to_ulong (offset + got)) eqn:E; simpl; rewrite <- Hu.
  - apply Z.ltb_lt in E. lia.
  - apply Z.ltb_ge in E. lia.
Qed.

Lemma write_to_copy_range v n offset :
  0 <= n -> 0 <= write_to_copy v n offset <= n.
Proof.
  intros Hn. unfold write_to_copy, to_ulong.
  destruct (_ <? n) eqn:E.
  - apply Z.ltb_lt in E. revert E. Z.div_mod_to_equations. lia.
  - lia.
Qed.

Lemma vault_write_high_water e v user n offset ret pos' v' :
  0 <= offset < 2 ^ 63 -> 0 <= n < 2 ^ 63 ->
  vault_write e v user n offset = Some (ret, pos', v') ->
  (ret < 0 /\ used_space v' = used_space v) \/
  (0 <= ret /\ used_space v' = Z.max (used_space v) (offset + ret)).
Proof.
  intros Ho Hn H.
  destruct (vault_write_used_space _ _ _ _ _ _ _ _ H)
    as [Herr | [tc [got [Htc [Hgot [Hret Hused]]]]]]; [left; exact Herr|].
  right.
  pose proof (write_to_copy_range v n offset (proj1 Hn)) as Hr.
  assert (Hg : 0 <= got <= n).
  { subst got tc. unfold len. lia. }
  rewrite to_loff_small in Hret by lia.
  rewrite to_ulong_small in Hused by lia.
  subst ret. split; [lia | exact Hused].
Qed.

Lemma write_seq_high_water reqs : forall v trace v',
  Forall (fun r => 0 <= w_offset r < 2 ^ 63 /\ 0 <= w_len r < 2 ^ 63) reqs ->
  write_seq v reqs = Some (trace, v') ->
  used_space v' = fold_right Z.max (used_space v) (map written_end trace).
Proof.
  induction reqs as [|r rest IH]; intros v trace v' Hall H; simpl in H.
  - injection H as <- <-. reflexivity.
  - inversion Hall as [|? ? [Ho Hn] Hrest]; subst.
    destruct (vault_write _ _ _ _ _) as [[[ret pos1] v1]|] eqn:Hw; [|discriminate].
    destruct (write_seq v1 rest) as [[trace1 v2]|] eqn:Hs; [|discriminate].
    injection H as <- <-.
    rewrite (IH _ _ _ Hrest Hs).
    destruct (vault_write_high_water _ _ _ _ _ _ _ _ Ho Hn Hw) as [[Hneg Hu] | [Hpos Hu]].
    + destruct (0 <=? ret) eqn:E; [apply Z.leb_le in E; lia|].
      rewrite Hu. reflexivity.
    + destruct (0 <=? ret) eqn:E; [|apply Z.leb_gt in E; lia].
      simpl. rewrite Hu, fold_max_shift. unfold written_end. simpl. reflexivity.
Qed.

Lemma vault_llseek_used_space e v f_pos offset whence :
  used_space (snd (vault_llseek e v f_pos offset whence)) = used_space v.
Proof.
  unfold vault_llseek.
  destruct (negb (owner v =? get_current_uid e)); [reflexivity|].
  pose proof (used_space_down_sem e v) as Hu.
  destruct (down_sem e v) as [r v1]. simpl in Hu.
  destruct (negb (r =? 0)); [exact Hu|].
  destruct (seek_target _ _ _ _); [|exact Hu].
  destruct (_ || _); exact Hu.
Qed.

Lemma vault_read_used_space e v room n offset ret pos' out v' :
  vault_read e v room n offset = Some (ret, pos', out, v') ->
  used_space v' = used_space v.
Proof.
  unfold vault_read.
  destruct (negb (owner v =? get_current_uid e)).
  { intros H. injection H as _ _ _ <-. reflexivity. }
  pose proof (used_space_down_sem e v) as Hu.
  destruct (down_sem e v) as [r v1]. simpl in Hu.
  destruct (negb (r =? 0)).
  { intros H. injection H as _ _ _ <-. exact Hu. }
  destruct (negb (kmalloc e _)).
  { intros H. injection H as _ _ _ <-. exact Hu. }
  destruct (memcpy_from _ _ _); [|discriminate].
  unfold copy_to_user. intros H. injection H as _ _ _ <-. exact Hu.
Qed.

Lemma ioctl_switch_used_space e cmd msg v ret v' :
  ioctl_switch e cmd msg v = Some (ret, v') ->
  used_space v' < used_space v ->
  (cmd = 0 \/ cmd = 5 \/ cmd = 3) /\ ret = 0 /\ used_space v' = 0.
Proof.
  unfold ioctl_switch.
  destruct (Z.eqb_spec cmd 0) as [C0 | C0].
  { repeat match goal with
           | |- context [if ?b then _ else _] => destruct b
           end;
      intros H; injection H as <- <-; simpl; intros Hlt; lia. }
  destruct (Z.eqb_spec cmd 1) as [C1 | C1].
  { repeat match goal with
           | |- context [if ?b then _ else _] => destruct b
           end;
      intros H; injection H as <- <-; simpl; intros Hlt; lia. }
  destruct (Z.eqb_spec cmd 5) as [C5 | C5].
  { repeat match goal with
           | |- context [if ?b then _ else _] => destruct b
           end;
      try (intros H; injection H as <- <-; simpl; intros Hlt; lia).
    destruct (memset_zero _ _); [|discriminate].
    intros H; injection H as <- <-; simpl; intros Hlt. lia. }
  destruct (Z.eqb_spec cmd 3) as [C3 | C3].
  { repeat match goal with
           | |- context [if ?b then _ else _] => destruct b
           end;
      intros H; injection H as <- <-; simpl; intros Hlt; lia. }
  intros H; injection H as <- <-; simpl; intros Hlt; lia.
Qed.

Lemma ioctl_handler_used_space e cmd msg vaults ret vaults' i v v' :
  ioctl_handler e cmd msg vaults = Some (ret, vaults') ->
  nth_error vaults i = Some v ->
  nth_error vaults' i = Some v' ->
  used_space v' < used_space v ->
  (cmd = 0 \/ cmd = 5 \/ cmd = 3) /\ ret = 0 /\ used_space v' = 0.
Proof.
  unfold ioctl_handler.
  destruct (N_VAULTS <=? mdevice msg).
  { intros H Hv Hv' Hlt. injection H as <- <-. rewrite Hv in Hv'.
    injection Hv' as <-. lia. }
  destruct (nth_error vaults (Z.to_nat (mdevice msg))) as [vault|] eqn:Hd; [|discriminate].
  pose proof (used_space_down_sem e vault) as Hu.
  destruct (down_sem e vault) as [r v1]. simpl in Hu.
  destruct (negb (r =? 0)).
  { intros H Hv Hv' Hlt. injection H as <- <-.
    rewrite nth_error_store in Hv'.
    destruct (Nat.eqb _ i) eqn:E.
    - apply Nat.eqb_eq in E. subst i. rewrite Hv in Hv'. simpl in Hv'.
      injection Hv' as <-. rewrite Hd in Hv. injection Hv as <-.
      simpl in Hlt. lia.
    - rewrite Hv in Hv'. injection Hv' as <-. lia. }
  destruct (ioctl_switch e cmd msg v1) as [[ret2 v2]|] eqn:Hsw; [|discriminate].
  intros H Hv Hv' Hlt. injection H as <- <-.
  rewrite nth_error_store in Hv'.
  destruct (Nat.eqb _ i) eqn:E.
  - apply Nat.eqb_eq in E. subst i. rewrite Hv in Hv'. simpl in Hv'.
    injection Hv' as <-. rewrite Hd in Hv. injection Hv as <-.
    apply (ioctl_switch_used_space _ _ _ _ _ _ Hsw). lia.
  - rewrite Hv in Hv'. injection Hv' as <-. lia.
Qed.

(** C6: a [write] call that succeeds leaves [used_space] at the greater
    of its old value and the position plus the count written; after any
    sequence of [write] calls [used_space] is the greatest of its first
    value and of position plus count over the calls that wrote; [llseek]
    and [read] keep [used_space], [write] never lowers it, and a control
    command lowers it only when it is [Create], [Erase] or [Delete], it
    succeeds and it sets [used_space] to 0. *)
Theorem used_space_high_water_mark :
  (forall e v user n offset ret pos' v',
      0 <= offset < 2 ^ 63 -> 0 <= n < 2 ^ 63 ->
      vault_write e v user n offset = Some (ret, pos', v') ->
      0 <= ret ->
      used_space v' = Z.max (used_space v) (offset + ret)) /\
  (forall reqs v trace v',
      Forall (fun r => 0 <= w_offset r < 2 ^ 63 /\ 0 <= w_len r < 2 ^ 63) reqs ->
      write_seq v reqs = Some (trace, v') ->
      used_space v' = fold_right Z.max (used_space v) (map written_end trace)) /\
  (forall e v f_pos offset whence,
      used_space (snd (vault_llseek e v f_pos offset whence)) = used_space v) /\
  (forall e v room n offset ret pos' out v',
      vault_read e v room n offset = Some (ret, pos', out, v') ->
      used_space v' = used_space v) /\
  (forall e v user n offset ret pos' v',
      vault_write e v user n offset = Some (ret, pos', v') ->
      used_space v <= used_space v') /\
  (forall e cmd msg vaults ret vaults' i v v',
      ioctl_handler e cmd msg vaults = Some (ret, vaults') ->
      nth_error vaults i = Some v ->
      nth_error vaults' i = Some v' ->
      used_space v' < used_space v ->
      (cmd = 0 \/ cmd = 5 \/ cmd = 3) /\ ret = 0 /\ used_space v' = 0).
Proof.
  split; [|split; [|split; [|split; [|split]]]].
  - intros e v user n offset ret pos' v' Ho Hn H Hret.
    destruct (vault_write_high_water _ _ _ _ _ _ _ _ Ho Hn H) as [[Hneg _] | [_ Hu]];
      [lia | exact Hu].
  - intros reqs. apply write_seq_high_water.
  - apply vault_llseek_used_space.
  - apply vault_read_used_space.
  - intros e v user n offset ret pos' v' H.
    destruct (vault_write_used_space _ _ _ _ _ _ _ _ H) as [[_ Hu] | [tc [got [_ [_ [_ Hu]]]]]];
      rewrite Hu; lia.
  - apply ioctl_handler_used_space.
Qed.

Lemma used_space_high_water_mark_witness :
  exists trace v',
    write_seq vault16
      [mk_write_req alice hello8 8 0; mk_write_req alice [33; 33] 2 3;
       mk_write_req mallory [33] 1 12]
    = Some (trace, v') /\
    trace = [(0, 8); (3, 2)] /\
    used_space v' = fold_right Z.max (used_space vault16) (map written_end trace) /\
    used_space v' = 8.
Proof.
  assert (Hr : Forall (fun r => 0 <= w_offset r < 2 ^ 63 /\ 0 <= w_len r < 2 ^ 63)
                 [mk_write_req alice hello8 8 0; mk_write_req alice [33; 33] 2 3;
                  mk_write_req mallory [33] 1 12]).
  { repeat constructor; simpl; lia. }
  destruct (write_seq vault16
      [mk_write_req alice hello8 8 0; mk_write_req alice [33; 33] 2 3;
       mk_write_req mallory [33] 1 12]) as [[trace v']|] eqn:H;
    [|vm_compute in H; discriminate H].
  exists trace, v'. split; [reflexivity|].
  pose proof (proj1 (proj2 used_space_high_water_mark) _ _ _ _ Hr H) as Hu.
  vm_compute in H. injection H as <- <-.
  split; [reflexivity|]. split; [exact Hu | reflexivity].
Defined.

(** ** The keystream *)

Lemma xor_loop_length buf : forall i offset k,
  length (xor_loop i buf offset k) = length buf.
Proof.
  induction buf as [|b rest IH]; intros; simpl; [reflexivity | rewrite IH; reflexivity].
Qed.

Lemma xor_loop_app a : forall b i offset k,
  xor_loop i (a ++ b) offset k
  = xor_loop i a offset k ++ xor_loop (i + len a) b offset k.
Proof.
  induction a as [|x a IH]; intros b i offset k; simpl.
  - unfold len. simpl. rewrite Z.add_0_r. reflexivity.
  - rewrite IH. do 3 f_equal. unfold len. simpl length. lia.
Qed.

(** The keystream byte depends on the sum of position and index only. *)
Lemma xor_loop_shift buf : forall i j offset offset' k,
  offset + i = offset' + j ->
  xor_loop i buf offset k = xor_loop j buf offset' k.
Proof.
  induction buf as [|b rest IH]; intros i j offset offset' k H; simpl; [reflexivity|].
  rewrite H. f_equal. apply IH. lia.
Qed.

(** Applying the keystream twice at the same positions is the identity. *)
Lemma xor_loop_involutive buf : forall i offset k,
  xor_loop i (xor_loop i buf offset k) offset k = buf.
Proof.
  induction buf as [|b rest IH]; intros i offset k; simpl; [reflexivity|].
  rewrite IH. f_equal.
  rewrite Z.lxor_assoc, Z.lxor_nilpotent, Z.lxor_0_r. reflexivity.
Qed.

Lemma xor_loop_firstn n : forall buf i offset k,
  firstn n (xor_loop i buf offset k) = xor_loop i (firstn n buf) offset k.
Proof.
  induction n as [|n IH]; intros [|b rest] i offset k; simpl; try reflexivity.
  rewrite IH. reflexivity.
Qed.

Lemma xor_buffer_whole buf n offset k :
  len buf = n ->
  xor_buffer buf n offset k = xor_loop 0 buf offset k.
Proof.
  intros H. unfold xor_buffer, len in *. subst n. rewrite Nat2Z.id.
  rewrite firstn_all, skipn_all, app_nil_r. reflexivity.
Qed.

(** ** Storing into a buffer *)

Lemma splice_length d p buf :
  (p + length buf <= length d)%nat -> length (splice d p buf) = length d.
Proof.
  intros H. unfold splice.
  rewrite !length_app, length_firstn, length_skipn. lia.
Qed.

Lemma splice_nil d p : splice d p [] = d.
Proof.
  unfold splice. simpl. rewrite Nat.add_0_r. apply firstn_skipn.
Qed.

Lemma splice_splice d p a b :
  (p + length a + length b <= length d)%nat ->
  splice (splice d p a) (p + length a) b = splice d p (a ++ b).
Proof.
  intros H. unfold splice.
  assert (Hp : length (firstn p d ++ a) = (p + length a)%nat).
  { rewrite length_app, length_firstn. lia. }
  rewrite (app_assoc (firstn p d) a).
  rewrite firstn_app, skipn_app, Hp.
  rewrite firstn_all2 by lia.
  rewrite (skipn_all2 (firstn p d ++ a)) by lia.
  replace (p + length a - (p + length a))%nat with 0%nat by lia.
  rewrite firstn_O, app_nil_r. simpl.
  rewrite skipn_skipn, length_app.
  replace (p + length a + length b - (p + length a) + (p + length a))%nat
    with (p + (length a + length b))%nat by lia.
  rewrite <- !app_assoc. reflexivity.
Qed.

Lemma splice_read d p buf n :
  (p <= length d)%nat -> (n <= length buf)%nat ->
  firstn n (skipn p (splice d p buf)) = firstn n buf.
Proof.
  intros Hp Hn. unfold splice.
  rewrite skipn_app.
  rewrite skipn_all2 by (rewrite length_firstn; lia).
  rewrite length_firstn. replace (p - Nat.min p (length d))%nat with 0%nat by lia.
  simpl. rewrite firstn_app.
  replace (n - length buf)%nat with 0%nat by lia.
  rewrite firstn_O, app_nil_r. reflexivity.
Qed.

(** ** One call of [write] and of [read] on a well-formed vault *)

Lemma len_firstn_le (l : list Z) (m : Z) :
  0 <= m <= len l -> len (firstn (Z.to_nat m) l) = m.
Proof.
  intros H. unfold len in *. rewrite length_firstn. lia.
Qed.

Lemma set_used_space_max v u :
  (if used_space v <? u then set_used_space u v else v)
  = set_used_space (Z.max (used_space v) u) v.
Proof.
  destruct (Z.ltb_spec (used_space v) u) as [H | H].
  - rewrite Z.max_r by lia. reflexivity.
  - rewrite Z.max_l by lia. destruct v; reflexivity.
Qed.

(** A [write] call of a wholly readable chunk at a position within the
    vault stores the image of as many bytes as fit. *)
Lemma vault_write_chunk e v d c pos :
  vault_ok v -> data v = Some d ->
  owner v = get_current_uid e -> kmalloc_ok e = true ->
  0 <= pos <= size v ->
  vault_write e v c (len c) pos
  = Some (Z.min (len c) (size v - pos), pos + Z.min (len c) (size v - pos),
          set_data
            (Some (splice d (Z.to_nat pos)
                     (xor_loop 0 (firstn (Z.to_nat (Z.min (len c) (size v - pos))) c)
                        pos (key v))))
            (set_used_space (Z.max (used_space v) (pos + Z.min (len c) (size v - pos))) v)).
Proof.
  intros Hok Hd Hown Hk Hpos.
  destruct Hok as [Huse Hsize Hused [d0 [Hd0 Hlen]] Hsem].
  rewrite Hd in Hd0. injection Hd0 as <-.
  assert (Hc : 0 <= len c) by (unfold len; lia).
  set (m := Z.min (len c) (size v - pos)).
  assert (Hm : 0 <= m <= len c /\ pos + m <= size v) by (subst m; lia).
  unfold MAX_DATA in Hsize.
  unfold vault_write.
  replace (owner v =? get_current_uid e) with true by (symmetry; apply Z.eqb_eq; exact Hown).
  rewrite (down_sem_free e v Hsem). simpl negb. cbv iota.
  assert (Htc : write_to_copy (set_sem (sem v - 1) v) (len c) pos = m).
  { unfold write_to_copy. simpl size. rewrite to_ulong_small by lia.
    subst m. destruct (Z.ltb_spec (size v - pos) (len c)); lia. }
  rewrite Htc.
  replace (kmalloc e m) with true by (unfold kmalloc; rewrite Hk, orb_true_r; reflexivity).
  simpl negb. cbv iota.
  assert (Hcopy : copy_from_user c m = (firstn (Z.to_nat m) c, 0)).
  { unfold copy_from_user. rewrite Z.min_l by lia.
    rewrite Z.sub_diag. simpl. rewrite app_nil_r. reflexivity. }
  rewrite Hcopy.
  assert (Hbuf : len (firstn (Z.to_nat m) c) = m) by (apply len_firstn_le; lia).
  rewrite (xor_buffer_whole _ _ _ _ Hbuf).
  simpl key.
  set (buf := xor_loop 0 (firstn (Z.to_nat m) c) pos (key v)).
  assert (Hblen : length buf = Z.to_nat m).
  { subst buf. rewrite xor_loop_length. unfold len in Hbuf. lia. }
  rewrite Z.sub_0_r.
  rewrite (to_ulong_small (pos + m)) by lia.
  rewrite set_used_space_max.
  simpl used_space.
  assert (Hmem : memcpy_to (Some d) pos buf m
                 = Some (Some (splice d (Z.to_nat pos) buf))).
  { unfold memcpy_to. destruct (Z.eqb_spec m 0) as [Hz | Hz].
    - destruct buf; [|simpl in Hblen; lia]. rewrite splice_nil. reflexivity.
    - replace ((0 <=? pos) && (pos + m <=? len d)) with true.
      + unfold splice. rewrite <- Hblen, firstn_all.
        replace (Z.to_nat (pos + m)) with (Z.to_nat pos + length buf)%nat by lia.
        reflexivity.
      + symmetry. apply andb_true_iff. split; apply Z.leb_le; lia. }
  simpl data. rewrite Hd, Hmem.
  rewrite !to_loff_small by lia.
  rewrite !Z.sub_0_r.
  do 2 f_equal.
  unfold up_sem, up, set_data, set_used_space, set_sem. simpl.
  f_equal. lia.
Qed.

(** A [read] call with room for all that is asked, within the used part
    of the vault (or of no bytes at all), delivers the bytes at the
    position under the keystream. *)
Lemma vault_read_chunk e v d n pos :
  vault_ok v -> data v = Some d ->
  owner v = get_current_uid e -> kmalloc_ok e = true ->
  0 <= pos <= size v -> 0 <= n -> pos + n <= Z.max pos (used_space v) ->
  vault_read e v n n pos
  = Some (n, pos + n,
          xor_loop 0 (firstn (Z.to_nat n) (skipn (Z.to_nat pos) d)) pos (key v), v).
Proof.
  intros Hok Hd Hown Hk Hpos Hn Hend.
  destruct Hok as [Huse Hsize Hused [d0 [Hd0 Hlen]] Hsem].
  rewrite Hd in Hd0. injection Hd0 as <-.
  unfold MAX_DATA in Hsize.
  unfold vault_read.
  replace (owner v =? get_current_uid e) with true by (symmetry; apply Z.eqb_eq; exact Hown).
  rewrite (down_sem_free e v Hsem). simpl negb. cbv iota.
  assert (Htc : read_to_copy (set_sem (sem v - 1) v) n pos = n).
  { unfold read_to_copy. simpl used_space.
    destruct (Z.ltb_spec (to_ulong (used_space v - pos)) n) as [H | H]; [|reflexivity].
    exfalso. destruct (Z.eq_dec n 0) as [-> | Hnz].
    - unfold to_ulong in H. revert H. Z.div_mod_to_equations. lia.
    - rewrite to_ulong_small in H by lia. lia. }
  rewrite Htc.
  replace (kmalloc e n) with true by (unfold kmalloc; rewrite Hk, orb_true_r; reflexivity).
  simpl negb. cbv iota. simpl data. rewrite Hd.
  set (buf := firstn (Z.to_nat n) (skipn (Z.to_nat pos) d)).
  assert (Hmem : memcpy_from (Some d) pos n = Some buf).
  { unfold memcpy_from. destruct (Z.eqb_spec n 0) as [-> | Hz]; [reflexivity|].
    replace ((0 <=? pos) && (pos + n <=? len d)) with true; [reflexivity|].
    symmetry. apply andb_true_iff. split; apply Z.leb_le; lia. }
  rewrite Hmem.
  assert (Hbuf : len buf = n).
  { subst buf. unfold len in *. rewrite length_firstn, length_skipn. lia. }
  rewrite (xor_buffer_whole _ _ _ _ Hbuf).
  simpl key.
  unfold copy_to_user. rewrite Z.min_id, Z.sub_diag, Z.sub_0_r.
  assert (Hall : firstn (Z.to_nat n) (xor_loop 0 buf pos (key v)) = xor_loop 0 buf pos (key v)).
  { apply firstn_all2. rewrite xor_loop_length. unfold len in Hbuf. lia. }
  rewrite Hall.
  rewrite !to_loff_small by lia.
  rewrite up_sem_down, set_sem_same. reflexivity.
Qed.

(** ** Chunked writes and reads *)

Lemma sum_nonneg (lens : list Z) : Forall (fun n => 0 <= n) lens -> 0 <= sum lens.
Proof.
  induction 1 as [|n rest Hn _ IH]; simpl; lia.
Qed.

Lemma firstn_add (A : Type) (n m : nat) : forall l : list A,
  firstn (n + m) l = firstn n l ++ firstn m (skipn n l).
Proof.
  induction n as [|n IH]; intros [|x l]; simpl; try reflexivity.
  - rewrite firstn_nil. reflexivity.
  - rewrite IH. reflexivity.
Qed.

Lemma len_app (a b : list Z) : len (a ++ b) = len a + len b.
Proof. unfold len. rewrite length_app. lia. Qed.

(** The first bytes of a chunk followed by more chunks, split at the end
    of what the first [write] call stores. *)
Lemma firstn_chunk (c rest : list Z) (avail : Z) :
  0 <= avail ->
  firstn (Z.to_nat (Z.min (len c + len rest) avail)) (c ++ rest)
  = firstn (Z.to_nat (Z.min (len c) avail)) c
    ++ firstn (Z.to_nat (Z.min (len rest) (avail - Z.min (len c) avail))) rest.
Proof.
  intros Ha. unfold len. rewrite firstn_app.
  destruct (Z.le_gt_cases (Z.of_nat (length c)) avail) as [H | H].
  - rewrite (Z.min_l (Z.of_nat (length c)) avail) by lia.
    rewrite Nat2Z.id, firstn_all, firstn_all2 by lia.
    do 2 f_equal. lia.
  - rewrite (Z.min_r (Z.of_nat (length c)) avail) by lia.
    rewrite Z.min_r by lia. rewrite Z.sub_diag.
    rewrite (Z.min_r _ 0) by lia.
    replace (Z.to_nat avail - length c)%nat with 0%nat by lia.
    reflexivity.
Qed.

Lemma write_chunks_spec e chunks : forall v d pos,
  vault_ok v -> data v = Some d ->
  owner v = get_current_uid e -> kmalloc_ok e = true ->
  0 <= pos <= size v ->
  exists v',
    write_chunks e v chunks pos
    = Some (pos + Z.min (len (concat chunks)) (size v - pos), v') /\
    vault_ok v' /\ size v' = size v /\ key v' = key v /\ owner v' = owner v /\
    data v'
    = Some (splice d (Z.to_nat pos)
              (xor_loop 0
                 (firstn (Z.to_nat (Z.min (len (concat chunks)) (size v - pos)))
                    (concat chunks)) pos (key v))) /\
    used_space v <= used_space v' /\
    (chunks <> [] ->
     pos + Z.min (len (concat chunks)) (size v - pos) <= used_space v').
Proof.
  induction chunks as [|c rest IH]; intros v d pos Hok Hd Hown Hk Hpos.
  - exists v. simpl. rewrite Z.min_l by (unfold len; simpl; lia).
    rewrite Z.add_0_r. simpl. rewrite splice_nil.
    split; [reflexivity|]. split; [exact Hok|].
    repeat (split; [reflexivity|]). split; [exact Hd|].
    split; [lia|]. intros H. contradiction H. reflexivity.
  - simpl write_chunks. rewrite (vault_write_chunk e v d c pos Hok Hd Hown Hk Hpos).
    set (m := Z.min (len c) (size v - pos)).
    set (a := xor_loop 0 (firstn (Z.to_nat m) c) pos (key v)).
    set (v1 := set_data (Some (splice d (Z.to_nat pos) a))
                 (set_used_space (Z.max (used_space v) (pos + m)) v)).
    assert (Hc : 0 <= len c) by (unfold len; lia).
    assert (Hm : 0 <= m <= len c /\ pos + m <= size v) by (subst m; lia).
    assert (Halen : length a = Z.to_nat m).
    { subst a. rewrite xor_loop_length, length_firstn. unfold len in *. lia. }
    destruct Hok as [Huse Hsize Hused [d0 [Hd0 Hlen]] Hsem].
    rewrite Hd in Hd0. injection Hd0 as <-.
    assert (Hok1 : vault_ok v1).
    { constructor; simpl; auto; try lia.
      eexists. split; [reflexivity|].
      unfold len in *. rewrite splice_length; lia. }
    destruct (IH v1 (splice d (Z.to_nat pos) a) (pos + m) Hok1 eq_refl Hown Hk)
      as [v' [Hw [Hok' [Hs' [Hk' [Ho' [Hd' [Hmono Hu']]]]]]]].
    { simpl. lia. }
    simpl size in *. simpl key in *. simpl owner in *. simpl used_space in *.
    exists v'.
    assert (Hr : 0 <= len (concat rest)) by (unfold len; lia).
    simpl concat. rewrite len_app.
    assert (HM : pos + Z.min (len c + len (concat rest)) (size v - pos)
                 = pos + m + Z.min (len (concat rest)) (size v - (pos + m))).
    { subst m. lia. }
    split; [rewrite Hw, HM; reflexivity|].
    split; [exact Hok'|]. split; [exact Hs'|]. split; [exact Hk'|].
    split; [exact Ho'|].
    split; [|split].
    + rewrite Hd'.
      replace (Z.to_nat (pos + m)) with (Z.to_nat pos + length a)%nat by lia.
      rewrite splice_splice.
      * do 2 f_equal.
        rewrite (firstn_chunk c (concat rest) (size v - pos)) by lia.
        fold m. rewrite xor_loop_app.
        subst a. f_equal.
        replace (size v - pos - m) with (size v - (pos + m)) by lia.
        apply xor_loop_shift.
        rewrite len_firstn_le; lia.
      * rewrite xor_loop_length, length_firstn. unfold len in *. lia.
    + lia.
    + intros _. rewrite HM.
      destruct rest as [|c2 rest2].
      * simpl. simpl in Hmono. replace (len []) with 0 by reflexivity. lia.
      * apply Hu'. discriminate.
Qed.

Lemma read_chunks_spec e lens : forall v d pos,
  vault_ok v -> data v = Some d ->
  owner v = get_current_uid e -> kmalloc_ok e = true ->
  0 <= pos <= size v ->
  Forall (fun n => 0 <= n) lens ->
  pos + sum lens <= Z.max pos (used_space v) ->
  read_chunks e v lens pos
  = Some (xor_loop 0 (firstn (Z.to_nat (sum lens)) (skipn (Z.to_nat pos) d)) pos (key v),
          pos + sum lens, v).
Proof.
  induction lens as [|n rest IH]; intros v d pos Hok Hd Hown Hk Hpos Hall Hend.
  - simpl. rewrite Z.add_0_r. reflexivity.
  - inversion Hall as [|? ? Hn Hrest]; subst.
    pose proof (sum_nonneg rest Hrest) as Hs.
    pose proof (ok_used v Hok) as Hused.
    destruct (ok_data v Hok) as [d0 [Hd0 Hlen]].
    rewrite Hd in Hd0. injection Hd0 as <-.
    simpl sum in *. simpl read_chunks.
    rewrite (vault_read_chunk e v d n pos Hok Hd Hown Hk Hpos Hn) by lia.
    rewrite (IH v d (pos + n) Hok Hd Hown Hk) by (try assumption; lia).
    rewrite Z.add_assoc.
    assert (Hout :
      xor_loop 0 (firstn (Z.to_nat (n + sum rest)) (skipn (Z.to_nat pos) d)) pos (key v)
      = xor_loop 0 (firstn (Z.to_nat n) (skipn (Z.to_nat pos) d)) pos (key v)
        ++ xor_loop 0 (firstn (Z.to_nat (sum rest)) (skipn (Z.to_nat (pos + n)) d))
             (pos + n) (key v)).
    { replace (Z.to_nat (n + sum rest)) with (Z.to_nat n + Z.to_nat (sum rest))%nat by lia.
      rewrite firstn_add, xor_loop_app, skipn_skipn.
      f_equal.
      replace (Z.to_nat n + Z.to_nat pos)%nat with (Z.to_nat (pos + n)) by lia.
      apply xor_loop_shift.
      unfold len in *. rewrite length_firstn, length_skipn. lia. }
    rewrite Hout. reflexivity.
Qed.

(** A [Create] that succeeds on a free vault whose semaphore is free at
    the call leaves a well-formed vault. *)
Lemma create_vault_ok e msg vaults vaults' v :
  0 <= mdevice msg < N_VAULTS ->
  nth_error vaults (Z.to_nat (mdevice msg)) = Some v ->
  0 < sem v ->
  ioctl_handler e 0 msg vaults = Some (0, vaults') ->
  exists v', nth_error vaults' (Z.to_nat (mdevice msg)) = Some v' /\
             vault_ok v' /\ used_space v' = 0 /\ owner v' = get_current_uid e.
Proof.
  intros Hdev Hv Hsem. unfold ioctl_handler.
  destruct (N_VAULTS <=? mdevice msg) eqn:E; [apply Z.leb_le in E; lia|].
  rewrite Hv, (down_sem_free e v Hsem). simpl negb. cbv iota.
  unfold ioctl_switch. simpl Z.eqb. cbv iota.
  simpl in_use. simpl owner.
  destruct (negb (in_use v =? 0)); [discriminate|].
  destruct (Z.ltb_spec (msize msg) 1); [discriminate|].
  destruct (Z.ltb_spec MAX_DATA (msize msg)); [discriminate|].
  simpl orb. cbv iota.
  destruct (negb (cdev_alloc_ok e)); [discriminate|].
  destruct (negb (cdev_add_ok e)); [discriminate|].
  destruct (negb (kmalloc e (msize msg))); [discriminate|].
  intros Hret. injection Hret as <-.
  rewrite nth_error_store, Nat.eqb_refl, Hv. simpl option_map.
  eexists. split; [reflexivity|].
  split; [|split; reflexivity].
  constructor; simpl; try lia.
  - eexists. split; [reflexivity|]. unfold len. rewrite repeat_length. lia.
  - unfold up. lia.
Qed.

(** ** The round trip *)

(** C1: on a vault in use, a buffer written by its owner at position [o]
    in any number of [write] calls and then read back from position [o]
    in any number of [read] calls that ask for [l] bytes in all, with
    [o] within the vault, [l] at most [size - o] and at most the length
    of the buffer and every copy to and from user space complete, comes
    back as the first [l] bytes of the buffer. *)
Theorem write_then_read_round_trip e v chunks lens o l :
  vault_ok v ->
  owner v = get_current_uid e ->
  kmalloc_ok e = true ->
  0 <= o < size v ->
  0 <= l <= size v - o ->
  l <= len (concat chunks) ->
  Forall (fun n => 0 <= n) lens ->
  sum lens = l ->
  exists pos1 v1,
    write_chunks e v chunks o = Some (pos1, v1) /\
    read_chunks e v1 lens o
    = Some (firstn (Z.to_nat l) (concat chunks), o + l, v1).
Proof.
  intros Hok Hown Hk Ho Hl Hlen Hlens Hsum.
  destruct (ok_data v Hok) as [d [Hd Hdlen]].
  destruct (write_chunks_spec e chunks v d o Hok Hd Hown Hk)
    as [v1 [Hw [Hok1 [Hs1 [Hk1 [Ho1 [Hd1 [Hmono Hu1]]]]]]]]; [lia|].
  set (M := Z.min (len (concat chunks)) (size v - o)) in *.
  exists (o + M), v1. split; [exact Hw|].
  assert (HlM : l <= M) by (subst M; lia).
  rewrite (read_chunks_spec e lens v1 _ o Hok1 Hd1); try assumption;
    try congruence; try lia.
  - rewrite Hsum, Hk1.
    rewrite splice_read.
    + rewrite xor_loop_firstn, firstn_firstn.
      replace (Nat.min (Z.to_nat l) (Z.to_nat M)) with (Z.to_nat l) by lia.
      rewrite xor_loop_involutive. reflexivity.
    + unfold len in Hdlen. lia.
    + rewrite xor_loop_length, length_firstn. subst M. unfold len in *. lia.
  - rewrite Hsum. destruct chunks as [|c rest].
    + unfold len in Hlen. simpl in Hlen. lia.
    + assert (Hne : c :: rest <> []) by discriminate.
      specialize (Hu1 Hne). lia.
Qed.

Lemma write_then_read_round_trip_witness :
  exists pos1 v1,
    write_chunks alice vault16 [[72; 69; 76]; [76; 79; 87; 79; 82]] 4 = Some (pos1, v1) /\
    read_chunks alice v1 [1; 4; 0; 2] 4 = Some ([72; 69; 76; 76; 79; 87; 79], 11, v1).
Proof.
  apply (write_then_read_round_trip alice vault16
           [[72; 69; 76]; [76; 79; 87; 79; 82]] [1; 4; 0; 2] 4 7).
  - constructor; simpl; try lia.
    + unfold MAX_DATA. lia.
    + eexists. split; [reflexivity | reflexivity].
  - reflexivity.
  - reflexivity.
  - simpl. lia.
  - simpl. lia.
  - unfold len. simpl. lia.
  - repeat constructor; lia.
  - reflexivity.
Defined.

(** ** The control channel and the other vaults *)

Lemma store_length (pool : list vault_t) : forall i v,
  length (store pool i v) = length pool.
Proof.
  induction pool as [|x rest IH]; intros [|i] v; simpl; try reflexivity.
  rewrite IH. reflexivity.
Qed.

(** Whatever the command, the message and the outcome, [ioctl_handler]
    keeps the number of vaults and touches no vault other than the one
    the message names. *)
Theorem ioctl_handler_frame e cmd msg vaults ret vaults' :
  ioctl_handler e cmd msg vaults = Some (ret, vaults') ->
  length vaults' = length vaults /\
  forall i, i <> Z.to_nat (mdevice msg) -> nth_error vaults' i = nth_error vaults i.
Proof.
  unfold ioctl_handler.
  destruct (N_VAULTS <=? mdevice msg).
  { intros H. injection H as _ <-. split; reflexivity. }
  destruct (nth_error vaults (Z.to_nat (mdevice msg))) as [vault|]; [|discriminate].
  destruct (down_sem e vault) as [r v1].
  assert (Hstore : forall w, length (store vaults (Z.to_nat (mdevice msg)) w) = length vaults /\
            forall i, i <> Z.to_nat (mdevice msg) ->
                      nth_error (store vaults (Z.to_nat (mdevice msg)) w) i = nth_error vaults i).
  { intros w. split; [apply store_length|].
    intros i Hi. rewrite nth_error_store.
    destruct (Nat.eqb_spec (Z.to_nat (mdevice msg)) i); [congruence | reflexivity]. }
  destruct (negb (r =? 0)).
  { intros H. injection H as _ <-. apply Hstore. }
  destruct (ioctl_switch e cmd msg v1) as [[ret2 v2]|]; [|discriminate].
  intros H. injection H as _ <-. apply Hstore.
Qed.

Lemma ioctl_handler_frame_witness :
  exists vaults',
    ioctl_handler alice 0 msg16 mod_init = Some (0, vaults') /\
    length vaults' = 4%nat /\
    nth_error vaults' 2 = Some (init_vault 2).
Proof.
  destruct (ioctl_handler alice 0 msg16 mod_init) as [[ret vaults']|] eqn:H;
    [|vm_compute in H; discriminate H].
  assert (Hret : ret = 0) by (vm_compute in H; injection H as <- _; reflexivity).
  subst ret. exists vaults'. split; [reflexivity|].
  destruct (ioctl_handler_frame alice 0 msg16 mod_init 0 vaults' H) as [Hl Hf].
  split; [exact Hl|]. rewrite (Hf 2%nat); [reflexivity | discriminate].
Defined.

Lemma fields_down_sem e v :
  let w := snd (down_sem e v) in
  key w = key v /\ data w = data v /\ driver w = driver v /\ size w = size v /\
  used_space w = used_space v /\ number w = number v /\ owner w = owner v /\
  in_use w = in_use v.
Proof.
  unfold down_sem. destruct (down_interruptible _ _). simpl. repeat split.
Qed.

Lemma ioctl_switch_failure e cmd msg v ret v' :
  ioctl_switch e cmd msg v = Some (ret, v') ->
  ret <> 0 ->
  same_identity v v' /\ sem v' = up (sem v) /\
  (cmd <> 0 -> data v' = data v /\ driver v' = driver v).
Proof.
  unfold ioctl_switch, same_identity.
  destruct (Z.eqb_spec cmd 0) as [C0 | C0].
  { repeat match goal with
           | |- context [if ?b then _ else _] => destruct b
           end;
      intros H; injection H as <- <-; simpl; intros Hret;
      try (exfalso; apply Hret; reflexivity);
      (split; [repeat split | split; [reflexivity | intros Hc; contradiction]]). }
  destruct (Z.eqb_spec cmd 1) as [C1 | C1].
  { repeat match goal with
           | |- context [if ?b then _ else _] => destruct b
           end;
      intros H; injection H as <- <-; simpl; intros Hret;
      try (exfalso; apply Hret; reflexivity);
      (split; [repeat split | split; [reflexivity | intros _; split; reflexivity]]). }
  destruct (Z.eqb_spec cmd 5) as [C5 | C5].
  { repeat match goal with
           | |- context [if ?b then _ else _] => destruct b
           end;
      try (intros H; injection H as <- <-; simpl; intros Hret;
           (split; [repeat split | split; [reflexivity | intros _; split; reflexivity]])).
    destruct (memset_zero _ _); [|discriminate].
    intros H; injection H as <- <-. intros Hret. exfalso. apply Hret. reflexivity. }
  destruct (Z.eqb_spec cmd 3) as [C3 | C3].
  { repeat match goal with
           | |- context [if ?b then _ else _] => destruct b
           end;
      intros H; injection H as <- <-; simpl; intros Hret;
      try (exfalso; apply Hret; reflexivity);
      (split; [repeat split | split; [reflexivity | intros _; split; reflexivity]]). }
  intros H; injection H as <- <-; simpl; intros Hret.
  split; [repeat split | split; [reflexivity | intros _; split; reflexivity]].
Qed.

(** A control command that fails, whatever the reason, leaves [in_use],
    [owner], [size], [used_space], [key] and [number] of every vault as
    they were; if the command is not [Create] and the semaphore of the
    vault is free, the whole array is as it was. *)
Theorem ioctl_handler_failure e cmd msg vaults ret vaults' :
  ioctl_handler e cmd msg vaults = Some (ret, vaults') ->
  ret <> 0 ->
  (forall i v v',
      nth_error vaults i = Some v -> nth_error vaults' i = Some v' ->
      same_identity v v') /\
  (cmd <> 0 ->
   (forall v, nth_error vaults (Z.to_nat (mdevice msg)) = Some v -> 0 < sem v) ->
   vaults' = vaults).
Proof.
  unfold ioctl_handler.
  destruct (N_VAULTS <=? mdevice msg).
  { intros H Hret. injection H as _ <-. split; [|reflexivity].
    intros i v v' Hv Hv'. rewrite Hv in Hv'. injection Hv' as <-.
    unfold same_identity. repeat split. }
  destruct (nth_error vaults (Z.to_nat (mdevice msg))) as [vault|] eqn:Hd; [|discriminate].
  pose proof (fields_down_sem e vault) as Hf.
  assert (Hfree : 0 < sem vault -> fst (down_sem e vault) = 0 /\
                                   sem (snd (down_sem e vault)) = sem vault - 1).
  { intros Hs. rewrite (down_sem_free e vault Hs). split; reflexivity. }
  destruct (down_sem e vault) as [r v1]. simpl in Hf, Hfree.
  destruct Hf as [Hk [Hda [Hdr [Hsz [Hus [Hnu [Hou Hin]]]]]]].
  assert (Hother : forall w i v v',
            same_identity vault w ->
            nth_error vaults i = Some v ->
            nth_error (store vaults (Z.to_nat (mdevice msg)) w) i = Some v' ->
            same_identity v v').
  { intros w i v v' Hw Hv Hv'. rewrite nth_error_store in Hv'.
    destruct (Nat.eqb_spec (Z.to_nat (mdevice msg)) i) as [<- | Hne].
    - rewrite Hv in Hv'. simpl in Hv'. injection Hv' as <-.
      rewrite Hd in Hv. injection Hv as <-. exact Hw.
    - rewrite Hv in Hv'. injection Hv' as <-. unfold same_identity. repeat split. }
  destruct (Z.eqb_spec r 0) as [Hr | Hr]; simpl.
  - destruct (ioctl_switch e cmd msg v1) as [[ret2 v2]|] eqn:Hsw; [|discriminate].
    intros H Hret. injection H as <- <-.
    destruct (ioctl_switch_failure _ _ _ _ _ _ Hsw Hret) as [Hid [Hsem Hrest]].
    split.
    + intros i v v'. apply Hother.
      unfold same_identity in *. destruct Hid as [H1 [H2 [H3 [H4 [H5 H6]]]]].
      repeat split; congruence.
    + intros Hc Hs. destruct (Hrest Hc) as [Hd2 Hr2].
      destruct (Hfree (Hs _ eq_refl)) as [_ Hs1].
      assert (Heq : v2 = vault).
      { unfold same_identity in Hid. destruct Hid as [H1 [H2 [H3 [H4 [H5 H6]]]]].
        destruct v2, vault. simpl in *. unfold up in Hsem. f_equal; try congruence. lia. }
      rewrite Heq. apply store_same. exact Hd.
  - intros H Hret. injection H as <- <-. split.
    + intros i v v'. apply Hother. unfold same_identity. simpl. repeat split; assumption.
    + intros Hc Hs. destruct (Hfree (Hs _ eq_refl)) as [Hr0 _]. contradiction.
Qed.

Lemma ioctl_handler_failure_witness :
  ioctl_handler mallory 5 msg16 (store mod_init 0 vault16_hello)
  = Some (- EACCES, store mod_init 0 vault16_hello).
Proof.
  destruct (ioctl_handler mallory 5 msg16 (store mod_init 0 vault16_hello))
    as [[ret vaults']|] eqn:H; [|vm_compute in H; discriminate H].
  assert (Hret : ret = - EACCES) by (vm_compute in H; injection H as <- _; reflexivity).
  subst ret.
  destruct (ioctl_handler_failure mallory 5 msg16 _ _ vaults' H) as [_ Hsame];
    [discriminate|].
  rewrite Hsame; [reflexivity | discriminate |].
  intros v Hv. vm_compute in Hv. injection Hv as <-. reflexivity.
Defined.

(** ** The four commands on a vault whose semaphore is free *)

Lemma ioctl_handler_free_sem e cmd msg vaults v :
  0 <= mdevice msg < N_VAULTS ->
  nth_error vaults (Z.to_nat (mdevice msg)) = Some v ->
  0 < sem v ->
  ioctl_handler e cmd msg vaults
  = match ioctl_switch e cmd msg (set_sem (sem v - 1) v) with
    | None => None
    | Some (ret, v2) => Some (ret, store vaults (Z.to_nat (mdevice msg)) v2)
    end.
Proof.
  intros Hdev Hv Hsem. unfold ioctl_handler.
  destruct (N_VAULTS <=? mdevice msg) eqn:E; [apply Z.leb_le in E; lia|].
  rewrite Hv, (down_sem_free e v Hsem). reflexivity.
Qed.

Lemma len_repeat (x : Z) (n : nat) : len (repeat x n) = Z.of_nat n.
Proof. unfold len. rewrite repeat_length. reflexivity. Qed.

Lemma create_on_free_slot e msg vaults v :
  0 <= mdevice msg < N_VAULTS ->
  nth_error vaults (Z.to_nat (mdevice msg)) = Some v ->
  0 < sem v ->
  in_use v = 0 ->
  1 <= msize msg <= MAX_DATA ->
  cdev_alloc_ok e = true -> cdev_add_ok e = true -> kmalloc_ok e = true ->
  exists v',
    ioctl_handler e 0 msg vaults = Some (0, store vaults (Z.to_nat (mdevice msg)) v') /\
    vault_ok v' /\
    in_use v' = 1 /\ owner v' = get_current_uid e /\
    size v' = msize msg /\ used_space v' = 0 /\
    key v' = firstn (Z.to_nat KEYSIZE) (mkey msg) /\
    data v' = Some (repeat 0 (Z.to_nat (msize msg))) /\
    driver v' = Some (mk_cdev true) /\
    sem v' = sem v /\ number v' = number v.
Proof.
  intros Hdev Hv Hsem Hfree Hsize Ha Hb Hk.
  rewrite (ioctl_handler_free_sem e 0 msg vaults v Hdev Hv Hsem).
  unfold ioctl_switch. simpl Z.eqb. cbv iota. simpl in_use.
  rewrite Hfree. simpl negb. cbv iota.
  replace ((msize msg <? 1) || (MAX_DATA <? msize msg)) with false.
  2:{ symmetry. apply orb_false_iff. split; apply Z.ltb_ge; lia. }
  rewrite Ha, Hb. unfold kmalloc. rewrite Hk, orb_true_r. simpl negb. cbv iota.
  eexists. split; [reflexivity|].
  split.
  - constructor; simpl; try lia.
    + eexists. split; [reflexivity|]. rewrite len_repeat. lia.
    + unfold up. lia.
  - simpl. unfold up. repeat split. lia.
Qed.

(** [Create] on a free slot with a size from 1 to [MAX_DATA], every
    kernel service succeeding, returns 0 and leaves a vault in use that
    belongs to the caller, has the size asked for, no used space, the
    first [KEYSIZE] bytes of the message as key, a buffer of zero bytes
    and a live device; the semaphore and the device number are as
    before. *)
Theorem create_succeeds e msg vaults v :
  0 <= mdevice msg < N_VAULTS ->
  nth_error vaults (Z.to_nat (mdevice msg)) = Some v ->
  0 < sem v ->
  in_use v = 0 ->
  1 <= msize msg <= MAX_DATA ->
  cdev_alloc_ok e = true -> cdev_add_ok e = true -> kmalloc_ok e = true ->
  exists v',
    ioctl_handler e 0 msg vaults = Some (0, store vaults (Z.to_nat (mdevice msg)) v') /\
    vault_ok v' /\
    in_use v' = 1 /\ owner v' = get_current_uid e /\
    size v' = msize msg /\ used_space v' = 0 /\
    key v' = firstn (Z.to_nat KEYSIZE) (mkey msg) /\
    data v' = Some (repeat 0 (Z.to_nat (msize msg))) /\
    driver v' = Some (mk_cdev true) /\
    sem v' = sem v /\ number v' = number v.
Proof.
  pose proof (create_on_free_slot e msg vaults v) as H.
  exact H.
Qed.

Lemma create_succeeds_witness :
  exists v',
    ioctl_handler alice 0 msg16 mod_init = Some (0, store mod_init 0 v') /\
    vault_ok v' /\ owner v' = 1000 /\ size v' = 16.
Proof.
  destruct (create_succeeds alice msg16 mod_init (init_vault 0))
    as [v' [H [Hok [_ [Ho [Hs _]]]]]]; try reflexivity.
  - split; [discriminate | reflexivity].
  - split; discriminate.
  - exists v'. split; [exact H|]. split; [exact Hok|]. split; [exact Ho | exact Hs].
Defined.




(** [Erase] by the owner of a vault in use returns 0, fills the buffer
    with zero bytes and sets [used_space] to 0; the vault stays in use
    with its size, key and owner, and a [read] at position 0 then
    delivers nothing and returns 0, whatever the length asked for. *)
Theorem erase_empties_vault e msg vaults v room n :
  0 <= mdevice msg < N_VAULTS ->
  nth_error vaults (Z.to_nat (mdevice msg)) = Some v ->
  vault_ok v ->
  owner v = get_current_uid e ->
  0 <= n -> 0 <= room ->
  exists v',
    ioctl_handler e 5 msg vaults = Some (0, store vaults (Z.to_nat (mdevice msg)) v') /\
    v' = set_data (Some (repeat 0 (Z.to_nat (size v)))) (set_used_space 0 v) /\
    vault_ok v' /\
    vault_read e v' room n 0 = Some (0, 0, [], v').
Proof.
  intros Hdev Hv Hok Hown Hn Hroom.
  pose proof Hok as [Huse Hsize Hused [d [Hd Hlen]] Hsem].
  set (v' := set_data (Some (repeat 0 (Z.to_nat (size v)))) (set_used_space 0 v)).
  assert (Hok' : vault_ok v').
  { constructor; simpl; try assumption; try lia.
    eexists. split; [reflexivity|]. rewrite len_repeat. lia. }
  exists v'. split; [|split; [reflexivity | split; [exact Hok'|]]].
  - rewrite (ioctl_handler_free_sem e 5 msg vaults v Hdev Hv Hsem).
    unfold ioctl_switch. simpl Z.eqb. cbv iota. simpl in_use. simpl owner.
    replace (in_use v =? 0) with false by (symmetry; apply Z.eqb_neq; exact Huse).
    replace (owner v =? get_current_uid e) with true by (symmetry; apply Z.eqb_eq; exact Hown).
    simpl negb. cbv iota. simpl data. simpl size. rewrite Hd.
    unfold memset_zero.
    replace (size v =? 0) with false by (symmetry; apply Z.eqb_neq; lia).
    replace (size v <=? len d) with true by (symmetry; apply Z.leb_le; lia).
    rewrite skipn_all2 by (unfold len in Hlen; lia).
    rewrite app_nil_r.
    do 3 f_equal. subst v'.
    unfold up_sem, up, set_data, set_used_space, set_sem. simpl. f_equal. lia.
  - unfold vault_read.
    replace (owner v' =? get_current_uid e) with true
      by (symmetry; apply Z.eqb_eq; exact Hown).
    rewrite (down_sem_free e v' (ok_sem v' Hok')). simpl negb. cbv iota.
    assert (Htc : forall s, read_to_copy (set_sem s v') n 0 = 0).
    { intros s. unfold read_to_copy. simpl used_space. rewrite Z.sub_0_r.
      rewrite to_ulong_small by lia.
      destruct (Z.ltb_spec 0 n); [reflexivity | lia]. }
    rewrite !Htc. unfold kmalloc. simpl negb. cbv iota.
    unfold memcpy_from. simpl Z.eqb. cbv iota.
    rewrite up_sem_down, set_sem_same.
    unfold xor_buffer, copy_to_user. rewrite Z.min_l by lia.
    reflexivity.
Qed.

Lemma erase_empties_vault_witness :
  exists v',
    ioctl_handler alice 5 msg16 (store mod_init 0 vault16_hello)
    = Some (0, store mod_init 0 v') /\
    vault_read alice v' 8 8 0 = Some (0, 0, [], v').
Proof.
  destruct (erase_empties_vault alice msg16 (store mod_init 0 vault16_hello)
              vault16_hello 8 8) as [v' [H [_ [_ Hr]]]].
  - split; [discriminate | reflexivity].
  - reflexivity.
  - constructor; simpl; try lia.
    + unfold MAX_DATA. lia.
    + eexists. split; reflexivity.
  - reflexivity.
  - lia.
  - lia.
  - exists v'. split; [exact H | exact Hr].
Defined.

Lemma nth_error_store_same (pool : list vault_t) (i : nat) (v w : vault_t) :
  nth_error pool i = Some v -> nth_error (store pool i w) i = Some w.
Proof.
  intros H. rewrite nth_error_store, Nat.eqb_refl, H. reflexivity.
Qed.

Lemma up_sem_reset v : up_sem (reset_vault (set_sem (sem v - 1) v)) = reset_vault v.
Proof.
  destruct v as [k d dr s sz us nu ow iu].
  cbv [up_sem up reset_vault set_data set_driver set_owner set_used_space
       set_size set_in_use set_sem key data driver sem size used_space number
       owner in_use].
  f_equal. lia.
Qed.

(** [Delete] by the owner of a vault in use returns 0 and resets the
    vault.  After it a second [Delete] by anyone fails with [-EINVAL],
    [open] refuses every valid caller, and a [Create] for the slot by any
    caller succeeds and makes that caller the owner. *)
Theorem delete_frees_slot e e1 e2 msg msg2 vaults v :
  0 <= mdevice msg < N_VAULTS ->
  nth_error vaults (Z.to_nat (mdevice msg)) = Some v ->
  vault_ok v ->
  owner v = get_current_uid e ->
  get_current_uid e1 <> to_uid (-1) ->
  mdevice msg2 = mdevice msg ->
  1 <= msize msg2 <= MAX_DATA ->
  cdev_alloc_ok e2 = true -> cdev_add_ok e2 = true -> kmalloc_ok e2 = true ->
  exists vaults1,
    vaults1 = store vaults (Z.to_nat (mdevice msg)) (reset_vault v) /\
    ioctl_handler e 3 msg vaults = Some (0, vaults1) /\
    ioctl_handler e1 3 msg vaults1 = Some (- EINVAL, vaults1) /\
    vault_open e1 (reset_vault v) = - EACCES /\
    exists v',
      ioctl_handler e2 0 msg2 vaults1
      = Some (0, store vaults1 (Z.to_nat (mdevice msg)) v') /\
      vault_ok v' /\ owner v' = get_current_uid e2 /\ size v' = msize msg2.
Proof.
  intros Hdev Hv Hok Hown Hvalid Hdev2 Hsize2 Ha Hb Hk.
  pose proof Hok as [Huse Hsize Hused _ Hsem].
  eexists. split; [reflexivity|].
  set (vaults1 := store vaults (Z.to_nat (mdevice msg)) (reset_vault v)).
  assert (Hv1 : nth_error vaults1 (Z.to_nat (mdevice msg)) = Some (reset_vault v)).
  { apply (nth_error_store_same _ _ _ _ Hv). }
  assert (Hsem1 : 0 < sem (reset_vault v)) by exact Hsem.
  split; [|split; [|split]].
  - rewrite (ioctl_handler_free_sem e 3 msg vaults v Hdev Hv Hsem).
    unfold ioctl_switch. simpl Z.eqb. cbv iota. simpl in_use. simpl owner.
    replace (in_use v =? 0) with false by (symmetry; apply Z.eqb_neq; exact Huse).
    replace (owner v =? get_current_uid e) with true by (symmetry; apply Z.eqb_eq; exact Hown).
    simpl negb. cbv iota. rewrite up_sem_reset. reflexivity.
  - rewrite (ioctl_handler_free_sem e1 3 msg vaults1 _ Hdev Hv1 Hsem1).
    unfold ioctl_switch. simpl Z.eqb. cbv iota.
    replace (in_use (set_sem (sem (reset_vault v) - 1) (reset_vault v)) =? 0) with true
      by reflexivity.
    rewrite up_sem_down, set_sem_same, (store_same _ _ _ Hv1). reflexivity.
  - unfold vault_open.
    replace (owner (reset_vault v) =? get_current_uid e1) with false; [reflexivity|].
    symmetry. apply Z.eqb_neq. simpl. congruence.
  - destruct (create_on_free_slot e2 msg2 vaults1 (reset_vault v))
      as [v' [Hc [Hok' [_ [Ho' [Hs' _]]]]]]; try assumption.
    + rewrite Hdev2. exact Hdev.
    + rewrite Hdev2. exact Hv1.
    + reflexivity.
    + exists v'. rewrite Hdev2 in Hc.
      split; [exact Hc|]. split; [exact Hok'|]. split; [exact Ho' | exact Hs'].
Qed.

Lemma delete_frees_slot_witness :
  exists vaults1,
    ioctl_handler alice 3 msg16 (store mod_init 0 vault16_hello) = Some (0, vaults1) /\
    ioctl_handler alice 3 msg16 vaults1 = Some (- EINVAL, vaults1) /\
    exists v',
      ioctl_handler mallory 0 msg10 vaults1 = Some (0, store vaults1 0 v') /\
      owner v' = 1001.
Proof.
  destruct (delete_frees_slot alice alice mallory msg16 msg10
              (store mod_init 0 vault16_hello) vault16_hello)
    as [vaults1 [_ [H1 [H2 [_ [v' [H3 [_ [Ho _]]]]]]]]]; try reflexivity.
  - split; [discriminate | reflexivity].
  - constructor; simpl; try lia.
    + unfold MAX_DATA. lia.
    + eexists. split; reflexivity.
  - discriminate.
  - split; discriminate.
  - exists vaults1. split; [exact H1|]. split; [exact H2|].
    exists v'. split; [exact H3 | exact Ho].
Defined.

(** ** Unloading the module *)

(** After [mod_exit] no vault is in use, holds a buffer or holds a driver
    object, whatever state the vaults were in, those left half-created
    included; every vault then refuses every valid caller on its data
    channel; and [reset_vault] on a vault already reset changes nothing. *)
Theorem mod_exit_releases_everything e vaults i v' f_pos offset whence room n user :
  get_current_uid e <> to_uid (-1) ->
  nth_error (mod_exit vaults) i = Some v' ->
  in_use v' = 0 /\ data v' = None /\ driver v' = None /\
  size v' = 0 /\ used_space v' = 0 /\
  reset_vault v' = v' /\
  vault_open e v' = - EACCES /\
  vault_release e v' = - EACCES /\
  vault_llseek e v' f_pos offset whence = (- EACCES, f_pos, v') /\
  vault_read e v' room n offset = Some (- EACCES, offset, [], v') /\
  vault_write e v' user n offset = Some (- EACCES, offset, v').
Proof.
  intros Hvalid Hnth. unfold mod_exit in Hnth.
  rewrite nth_error_map in Hnth.
  destruct (nth_error vaults i) as [v|]; [|discriminate].
  simpl in Hnth. injection Hnth as <-.
  destruct (data_channel_after_reset e v f_pos offset whence room n user Hvalid)
    as [H1 [H2 [H3 [H4 [H5 H6]]]]].
  repeat split; assumption.
Qed.

Lemma mod_exit_releases_everything_witness :
  exists v',
    nth_error (mod_exit (store mod_init 0 vault_half_created)) 0 = Some v' /\
    driver v' = None /\ vault_open root v' = - EACCES.
Proof.
  eexists. split; [reflexivity|].
  destruct (mod_exit_releases_everything root (store mod_init 0 vault_half_created) 0
              _ 0 0 0 0 0 [] ltac:(discriminate) eq_refl)
    as [_ [_ [Hd [_ [_ [_ [Ho _]]]]]]].
  split; [exact Hd | exact Ho].
Defined.

(** ** Writing and reading within the vault, any user buffer *)

Lemma splice_nth_outside d p buf i :
  (p + length buf <= length d)%nat ->
  (i < p \/ p + length buf <= i)%nat ->
  nth i (splice d p buf) 0 = nth i d 0.
Proof.
  intros Hin Hout. unfold splice.
  assert (Hp : length (firstn p d) = p) by (rewrite length_firstn; lia).
  destruct Hout as [Hlt | Hge].
  - rewrite app_nth1 by lia.
    rewrite <- (firstn_skipn p d) at 2. rewrite app_nth1 by lia. reflexivity.
  - rewrite app_nth2 by lia. rewrite app_nth2 by lia. rewrite Hp.
    rewrite <- (firstn_skipn (p + length buf) d) at 2.
    rewrite app_nth2 by (rewrite length_firstn; lia).
    rewrite length_firstn. f_equal. lia.
Qed.

(** What [write] does at a position within the vault for its owner: the
    readable bytes, padded with zero bytes to [to_copy], go through the
    keystream into the buffer; the count is the number of readable bytes. *)
Lemma vault_write_within e v d user n pos :
  vault_ok v -> data v = Some d ->
  owner v = get_current_uid e ->
  0 <= pos <= size v -> 0 <= n ->
  vault_write e v user n pos
  = if kmalloc e (Z.min n (size v - pos))
    then Some (Z.min (Z.min n (size v - pos)) (len user),
               pos + Z.min (Z.min n (size v - pos)) (len user),
               set_data
                 (Some (splice d (Z.to_nat pos)
                          (xor_loop 0
                             (firstn (Z.to_nat (Z.min (Z.min n (size v - pos)) (len user))) user
                              ++ repeat 0 (Z.to_nat (Z.min n (size v - pos)
                                                     - Z.min (Z.min n (size v - pos)) (len user))))
                             pos (key v))))
                 (set_used_space
                    (Z.max (used_space v) (pos + Z.min (Z.min n (size v - pos)) (len user))) v))
    else Some (- ENOMEM, pos, v).
Proof.
  intros Hok Hd Hown Hpos Hn.
  destruct Hok as [Huse Hsize Hused [d0 [Hd0 Hlen]] Hsem].
  rewrite Hd in Hd0. injection Hd0 as <-.
  assert (Hc : 0 <= len user) by (unfold len; lia).
  set (tc := Z.min n (size v - pos)).
  set (got := Z.min tc (len user)).
  assert (Htcr : 0 <= tc <= n /\ pos + tc <= size v) by (subst tc; lia).
  assert (Hgot : 0 <= got <= tc /\ got <= len user) by (subst got; lia).
  unfold MAX_DATA in Hsize.
  unfold vault_write.
  replace (owner v =? get_current_uid e) with true by (symmetry; apply Z.eqb_eq; exact Hown).
  rewrite (down_sem_free e v Hsem). simpl negb. cbv iota.
  assert (Htc : write_to_copy (set_sem (sem v - 1) v) n pos = tc).
  { unfold write_to_copy. simpl size. rewrite to_ulong_small by lia.
    subst tc. destruct (Z.ltb_spec (size v - pos) n); lia. }
  rewrite Htc.
  destruct (kmalloc e tc); simpl negb; cbv iota.
  2:{ rewrite up_sem_down, set_sem_same. reflexivity. }
  unfold copy_from_user. fold got.
  set (buffer := firstn (Z.to_nat got) user ++ repeat 0 (Z.to_nat (tc - got))).
  assert (Hbuf : len buffer = tc).
  { subst buffer. rewrite len_app, len_repeat, len_firstn_le by lia. lia. }
  rewrite (xor_buffer_whole _ _ _ _ Hbuf).
  simpl key.
  set (buf := xor_loop 0 buffer pos (key v)).
  assert (Hblen : length buf = Z.to_nat tc).
  { subst buf. rewrite xor_loop_length. unfold len in Hbuf. lia. }
  replace (pos + tc - (tc - got)) with (pos + got) by lia.
  rewrite (to_ulong_small (pos + got)) by lia.
  rewrite set_used_space_max.
  simpl used_space.
  assert (Hmem : memcpy_to (Some d) pos buf tc
                 = Some (Some (splice d (Z.to_nat pos) buf))).
  { unfold memcpy_to. destruct (Z.eqb_spec tc 0) as [Hz | Hz].
    - destruct buf; [|simpl in Hblen; lia]. rewrite splice_nil. reflexivity.
    - replace ((0 <=? pos) && (pos + tc <=? len d)) with true.
      + unfold splice. rewrite <- Hblen, firstn_all.
        replace (Z.to_nat (pos + tc)) with (Z.to_nat pos + length buf)%nat by lia.
        reflexivity.
      + symmetry. apply andb_true_iff. split; apply Z.leb_le; lia. }
  simpl data. rewrite Hd, Hmem.
  replace (tc - (tc - got)) with got by lia.
  rewrite !to_loff_small by lia.
  do 2 f_equal.
  unfold up_sem, up, set_data, set_used_space, set_sem. simpl.
  f_equal. lia.
Qed.

Lemma vault_write_in_bounds e v user n pos :
  vault_ok v -> 0 <= pos <= size v -> 0 <= n ->
  exists ret pos' v',
    vault_write e v user n pos = Some (ret, pos', v') /\
    vault_ok v' /\ size v' = size v /\ key v' = key v /\ owner v' = owner v /\
    0 <= pos' <= size v /\
    (ret < 0 /\ pos' = pos /\ v' = v \/
     0 <= ret <= n /\ ret <= len user /\ pos' = pos + ret) /\
    forall d d', data v = Some d -> data v' = Some d' ->
      length d' = length d /\
      forall i, Z.of_nat i < pos \/ pos + Z.min n (size v - pos) <= Z.of_nat i ->
                nth i d' 0 = nth i d 0.
Proof.
  intros Hok Hpos Hn.
  destruct (Z.eqb_spec (owner v) (get_current_uid e)) as [Hown | Hown].
  2:{ exists (- EACCES), pos, v. unfold vault_write.
      replace (owner v =? get_current_uid e) with false by (symmetry; apply Z.eqb_neq; exact Hown).
      simpl. split; [reflexivity|]. split; [exact Hok|].
      repeat (split; [reflexivity|]). split; [lia|].
      split; [left; repeat split; reflexivity|].
      intros d d' Hd Hd'. rewrite Hd in Hd'. injection Hd' as <-. split; reflexivity. }
  destruct (ok_data v Hok) as [d [Hd Hlen]].
  rewrite (vault_write_within e v d user n pos Hok Hd Hown Hpos Hn).
  destruct (kmalloc e (Z.min n (size v - pos))).
  2:{ exists (- ENOMEM), pos, v. split; [reflexivity|]. split; [exact Hok|].
      repeat (split; [reflexivity|]). split; [lia|].
      split; [left; repeat split; reflexivity|].
      intros d1 d' Hd1 Hd'. rewrite Hd1 in Hd'. injection Hd' as <-. split; reflexivity. }
  set (tc := Z.min n (size v - pos)).
  set (got := Z.min tc (len user)).
  assert (Hc : 0 <= len user) by (unfold len; lia).
  set (buf := xor_loop 0 _ pos (key v)).
  assert (Hblen : length buf = Z.to_nat tc).
  { subst buf. rewrite xor_loop_length, length_app, length_firstn, repeat_length.
    unfold len in *. subst got tc. lia. }
  destruct Hok as [Huse Hsize Hused _ Hsem].
  assert (Hsl : length (splice d (Z.to_nat pos) buf) = length d).
  { apply splice_length. unfold len in Hlen. subst tc. lia. }
  eexists _, _, _. split; [reflexivity|].
  split.
  { constructor; simpl; try assumption; try (subst got tc; lia).
    eexists. split; [reflexivity|]. unfold len in *. rewrite Hsl. exact Hlen. }
  simpl. repeat (split; [reflexivity|]).
  split; [subst got tc; lia|].
  split; [right; subst got tc; lia|].
  intros d1 d' Hd1 Hd'. rewrite Hd in Hd1. injection Hd1 as <-. injection Hd' as <-.
  split; [exact Hsl|].
  intros i Hi. apply splice_nth_outside.
  - unfold len in Hlen. subst tc. lia.
  - rewrite Hblen. fold tc in Hi. subst tc. lia.
Qed.

(** A [write] at a position within the vault, by anyone, from any user
    buffer: the call returns, the vault stays well formed with its size,
    key and owner, the position stays within the vault, the count is at
    most what was asked and what was readable, and no byte outside
    [[pos, pos + to_copy)] changes. *)
Theorem vault_write_keeps_bounds e v user n pos :
  vault_ok v -> 0 <= pos <= size v -> 0 <= n ->
  exists ret pos' v',
    vault_write e v user n pos = Some (ret, pos', v') /\
    vault_ok v' /\ size v' = size v /\ key v' = key v /\ owner v' = owner v /\
    0 <= pos' <= size v /\
    (ret < 0 /\ pos' = pos /\ v' = v \/
     0 <= ret <= n /\ ret <= len user /\ pos' = pos + ret) /\
    forall d d', data v = Some d -> data v' = Some d' ->
      length d' = length d /\
      forall i, Z.of_nat i < pos \/ pos + Z.min n (size v - pos) <= Z.of_nat i ->
                nth i d' 0 = nth i d 0.
Proof.
  pose proof (vault_write_in_bounds e v user n pos) as H.
  exact H.
Qed.

Lemma vault_write_keeps_bounds_witness :
  exists ret pos' v',
    vault_write alice vault16_hello [88; 89; 90] 8 12 = Some (ret, pos', v') /\
    vault_ok v' /\ 0 <= pos' <= 16.
Proof.
  destruct (vault_write_keeps_bounds alice vault16_hello [88; 89; 90] 8 12)
    as [ret [pos' [v' [H [Hok [_ [_ [_ [Hp _]]]]]]]]].
  - constructor; simpl; try lia.
    + unfold MAX_DATA. lia.
    + eexists. split; reflexivity.
  - simpl. lia.
  - lia.
  - exists ret, pos', v'. split; [exact H|]. split; [exact Hok | exact Hp].
Defined.

(** What [read] does at a position within the used part of the vault
    for its owner. *)
Lemma vault_read_within e v d room n pos :
  vault_ok v -> data v = Some d ->
  owner v = get_current_uid e ->
  0 <= pos <= used_space v -> 0 <= n -> 0 <= room ->
  vault_read e v room n pos
  = if kmalloc e (Z.min n (used_space v - pos))
    then Some (Z.min (Z.min n (used_space v - pos)) room,
               pos + Z.min (Z.min n (used_space v - pos)) room,
               xor_loop 0
                 (firstn (Z.to_nat (Z.min (Z.min n (used_space v - pos)) room))
                    (skipn (Z.to_nat pos) d)) pos (key v),
               v)
    else Some (- ENOMEM, pos, [], v).
Proof.
  intros Hok Hd Hown Hpos Hn Hroom.
  destruct Hok as [Huse Hsize Hused [d0 [Hd0 Hlen]] Hsem].
  rewrite Hd in Hd0. injection Hd0 as <-.
  unfold MAX_DATA in Hsize.
  set (tc := Z.min n (used_space v - pos)).
  set (put := Z.min tc room).
  assert (Htcr : 0 <= tc <= n /\ pos + tc <= used_space v) by (subst tc; lia).
  assert (Hput : 0 <= put <= tc) by (subst put; lia).
  unfold vault_read.
  replace (owner v =? get_current_uid e) with true by (symmetry; apply Z.eqb_eq; exact Hown).
  rewrite (down_sem_free e v Hsem). simpl negb. cbv iota.
  assert (Htc : read_to_copy (set_sem (sem v - 1) v) n pos = tc).
  { unfold read_to_copy. simpl used_space. rewrite to_ulong_small by lia.
    subst tc. destruct (Z.ltb_spec (used_space v - pos) n); lia. }
  rewrite Htc.
  destruct (kmalloc e tc); simpl negb; cbv iota.
  2:{ rewrite up_sem_down, set_sem_same. reflexivity. }
  simpl data. rewrite Hd.
  set (buf := firstn (Z.to_nat tc) (skipn (Z.to_nat pos) d)).
  assert (Hmem : memcpy_from (Some d) pos tc = Some buf).
  { unfold memcpy_from. destruct (Z.eqb_spec tc 0) as [Hz | Hz].
    - subst buf. rewrite Hz. reflexivity.
    - replace ((0 <=? pos) && (pos + tc <=? len d)) with true; [reflexivity|].
      symmetry. apply andb_true_iff. split; apply Z.leb_le; lia. }
  rewrite Hmem.
  assert (Hbuf : len buf = tc).
  { subst buf. unfold len in *. rewrite length_firstn, length_skipn. lia. }
  rewrite (xor_buffer_whole _ _ _ _ Hbuf).
  simpl key.
  unfold copy_to_user. fold put.
  rewrite xor_loop_firstn. subst buf. rewrite firstn_firstn.
  replace (Nat.min (Z.to_nat put) (Z.to_nat tc)) with (Z.to_nat put) by lia.
  replace (tc - (tc - put)) with put by lia.
  rewrite !to_loff_small by lia.
  rewrite up_sem_down, set_sem_same. reflexivity.
Qed.

(** A [read] at a position within the used part of the vault, by anyone:
    the call returns and changes nothing in the vault; what it delivers
    lies below [used_space], is at most what was asked and what the user
    buffer holds, and is the stored bytes under the keystream of their
    positions. *)
Theorem vault_read_keeps_bounds e v room n pos :
  vault_ok v -> 0 <= pos <= used_space v -> 0 <= n -> 0 <= room ->
  exists ret pos' out,
    vault_read e v room n pos = Some (ret, pos', out, v) /\
    (ret < 0 /\ pos' = pos /\ out = [] \/
     0 <= ret <= n /\ ret <= room /\ pos' = pos + ret /\ pos' <= used_space v /\
     len out = ret /\
     forall d, data v = Some d ->
               out = xor_loop 0 (firstn (Z.to_nat ret) (skipn (Z.to_nat pos) d)) pos (key v)).
Proof.
  intros Hok Hpos Hn Hroom.
  destruct (Z.eqb_spec (owner v) (get_current_uid e)) as [Hown | Hown].
  2:{ exists (- EACCES), pos, []. unfold vault_read.
      replace (owner v =? get_current_uid e) with false by (symmetry; apply Z.eqb_neq; exact Hown).
      simpl. split; [reflexivity|]. left. repeat split; reflexivity. }
  destruct (ok_data v Hok) as [d [Hd Hlen]].
  rewrite (vault_read_within e v d room n pos Hok Hd Hown Hpos Hn Hroom).
  destruct (kmalloc e (Z.min n (used_space v - pos))).
  2:{ exists (- ENOMEM), pos, []. split; [reflexivity|]. left. repeat split; reflexivity. }
  pose proof (ok_used v Hok) as Hused.
  set (ret := Z.min (Z.min n (used_space v - pos)) room).
  eexists _, _, _. split; [reflexivity|]. right.
  split; [subst ret; lia|]. split; [subst ret; lia|]. split; [reflexivity|].
  split; [subst ret; lia|].
  split.
  - unfold len in *. rewrite xor_loop_length, length_firstn, length_skipn.
    subst ret. lia.
  - intros d1 Hd1. rewrite Hd in Hd1. injection Hd1 as <-. reflexivity.
Qed.

Lemma vault_read_keeps_bounds_witness :
  exists ret pos' out,
    vault_read alice vault16_hello 3 100 6 = Some (ret, pos', out, vault16_hello) /\
    (ret < 0 \/ pos' <= 8).
Proof.
  destruct (vault_read_keeps_bounds alice vault16_hello 3 100 6)
    as [ret [pos' [out [H Hcases]]]].
  - constructor; simpl; try lia.
    + unfold MAX_DATA. lia.
    + eexists. split; reflexivity.
  - simpl. lia.
  - lia.
  - lia.
  - exists ret, pos', out. split; [exact H|].
    destruct Hcases as [[Hneg _] | [_ [_ [_ [Hle _]]]]]; [left; exact Hneg | right; exact Hle].
Defined.

(** ** Seeking, any arguments *)

Lemma to_loff_range x : - 2 ^ 63 <= to_loff x < 2 ^ 63.
Proof.
  unfold to_loff. pose proof (Z.mod_pos_bound (x + 2 ^ 63) (2 ^ 64)). lia.
Qed.

Lemma seek_target_range v f_pos offset whence t :
  - 2 ^ 63 <= offset < 2 ^ 63 ->
  seek_target v f_pos offset whence = Some t -> - 2 ^ 63 <= t < 2 ^ 63.
Proof.
  intros Ho. unfold seek_target.
  destruct (whence =? SEEK_SET); [intros H; injection H as <-; exact Ho|].
  destruct (whence =? SEEK_CUR); [intros H; injection H as <-; apply to_loff_range|].
  destruct (whence =? SEEK_END); [intros H; injection H as <-; apply to_loff_range|].
  discriminate.
Qed.

Lemma vault_llseek_in_bounds e v f_pos offset whence ret pos' v' :
  - 2 ^ 63 <= offset < 2 ^ 63 ->
  vault_llseek e v f_pos offset whence = (ret, pos', v') ->
  (ret < 0 /\ pos' = f_pos \/ ret = pos' /\ 0 <= pos' < size v) /\
  (0 < sem v -> v' = v).
Proof.
  intros Ho. unfold vault_llseek.
  destruct (negb (owner v =? get_current_uid e)).
  { intros H. injection H as <- <- <-. split; [left; split; reflexivity | reflexivity]. }
  assert (Hfree : 0 < sem v -> up_sem (snd (down_sem e v)) = v)
    by (intros Hs; apply (down_up_free e v Hs)).
  assert (Hs : size (snd (down_sem e v)) = size v) by apply (fields_down_sem e v).
  destruct (down_sem e v) as [r v1]. simpl in Hfree, Hs.
  destruct (negb (r =? 0)).
  { intros H. injection H as <- <- <-. split; [left; split; reflexivity | exact Hfree]. }
  destruct (seek_target v1 f_pos offset whence) as [t|] eqn:Ht.
  2:{ intros H. injection H as <- <- <-. split; [left; split; reflexivity | exact Hfree]. }
  pose proof (seek_target_range _ _ _ _ _ Ho Ht) as Hr.
  destruct ((t <? 0) || (size v1 <=? to_ulong t)) eqn:E.
  { intros H. injection H as <- <- <-. split; [left; split; reflexivity | exact Hfree]. }
  intros H. injection H as <- <- <-. split; [|exact Hfree].
  right. apply orb_false_iff in E. destruct E as [E1 E2].
  apply Z.ltb_ge in E1. apply Z.leb_gt in E2.
  rewrite to_ulong_small in E2 by lia. rewrite Hs in E2.
  split; [reflexivity | lia].
Qed.

(** Whatever the caller, the mode, the offset and the state of the
    vault, [llseek] either fails, with a negative value and the position
    as it was, or returns the new position, which is then not negative
    and below [size]; it changes nothing in a vault whose semaphore is
    free. *)
Theorem vault_llseek_keeps_bounds e v f_pos offset whence ret pos' v' :
  - 2 ^ 63 <= offset < 2 ^ 63 ->
  vault_llseek e v f_pos offset whence = (ret, pos', v') ->
  (ret < 0 /\ pos' = f_pos \/ ret = pos' /\ 0 <= pos' < size v) /\
  (0 < sem v -> v' = v).
Proof.
  pose proof (vault_llseek_in_bounds e v f_pos offset whence ret pos' v') as H.
  exact H.
Qed.

Lemma vault_llseek_keeps_bounds_witness :
  exists ret pos',
    vault_llseek alice vault16 7 (- 9223372036854775808) SEEK_CUR = (ret, pos', vault16) /\
    (ret < 0 /\ pos' = 7 \/ ret = pos' /\ 0 <= pos' < 16).
Proof.
  destruct (vault_llseek alice vault16 7 (- 9223372036854775808) SEEK_CUR)
    as [[ret pos'] v'] eqn:H.
  destruct (vault_llseek_keeps_bounds alice vault16 7 (- 9223372036854775808) SEEK_CUR
              ret pos' v') as [H1 H2].
  - lia.
  - exact H.
  - exists ret, pos'. rewrite (H2 eq_refl). split; [reflexivity | exact H1].
Defined.

(** ** A process on an open file *)

Lemma read_to_copy_range v n offset :
  0 <= n -> 0 <= read_to_copy v n offset <= n.
Proof.
  intros Hn. unfold read_to_copy, to_ulong.
  destruct (_ <? n) eqn:E.
  - apply Z.ltb_lt in E. revert E. Z.div_mod_to_equations. lia.
  - lia.
Qed.

Lemma vault_read_position e v room n pos ret pos' out v' :
  vault_ok v -> 0 <= pos <= size v -> 0 <= n < 2 ^ 63 -> 0 <= room ->
  vault_read e v room n pos = Some (ret, pos', out, v') ->
  v' = v /\ pos <= pos' <= size v.
Proof.
  intros Hok Hpos Hn Hroom.
  destruct Hok as [Huse Hsize Hused [d [Hd Hlen]] Hsem].
  unfold MAX_DATA in Hsize.
  unfold vault_read.
  destruct (negb (owner v =? get_current_uid e)).
  { intros H. injection H as _ <- _ <-. split; [reflexivity | lia]. }
  rewrite (down_sem_free e v Hsem). simpl negb. cbv iota.
  assert (Htc : read_to_copy (set_sem (sem v - 1) v) n pos = read_to_copy v n pos)
    by reflexivity.
  rewrite Htc. pose proof (read_to_copy_range v n pos (proj1 Hn)) as Hr.
  set (tc := read_to_copy v n pos) in *.
  destruct (negb (kmalloc e tc)).
  { intros H. injection H as _ <- _ <-. rewrite up_sem_down, set_sem_same.
    split; [reflexivity | lia]. }
  simpl data. rewrite Hd.
  destruct (memcpy_from (Some d) pos tc) as [buffer|] eqn:Hm; [|discriminate].
  unfold copy_to_user. intros H. injection H as _ <- _ <-.
  rewrite up_sem_down, set_sem_same. split; [reflexivity|].
  assert (Hb : tc = 0 \/ pos + tc <= size v).
  { unfold memcpy_from in Hm. destruct (Z.eqb_spec tc 0); [left; assumption | right].
    destruct ((0 <=? pos) && (pos + tc <=? len d)) eqn:E; [|discriminate].
    apply andb_true_iff in E. destruct E as [_ E]. apply Z.leb_le in E. lia. }
  rewrite to_loff_small by lia. lia.
Qed.

(** One call on an open file whose position is within the vault: when it
    returns, the vault is well formed with the size, key and owner it had
    and the position is still within the vault. *)
Lemma file_call_invariant e v f_pos op ret pos' v' :
  vault_ok v -> 0 <= f_pos <= size v -> file_op_ok op ->
  file_call e v f_pos op = Some (ret, pos', v') ->
  vault_ok v' /\ 0 <= pos' <= size v' /\
  size v' = size v /\ key v' = key v /\ owner v' = owner v /\
  used_space v <= used_space v'.
Proof.
  intros Hok Hpos Hop. destruct op as [offset whence | room n | user n]; simpl in *.
  - intros H. injection H as H.
    destruct (vault_llseek_in_bounds _ _ _ _ _ _ _ _ Hop H) as [Hcase Hsame].
    rewrite (Hsame (ok_sem v Hok)).
    split; [exact Hok|]. split; [lia|]. repeat split; reflexivity || lia.
  - destruct (vault_read e v room n f_pos) as [[[[r p] out] v1]|] eqn:Hr; [|discriminate].
    intros H. injection H as <- <- <-.
    destruct Hop as [Hroom Hn].
    destruct (vault_read_position _ _ _ _ _ _ _ _ _ Hok Hpos Hn Hroom Hr) as [-> Hp].
    split; [exact Hok|]. split; [lia|]. repeat split; reflexivity || lia.
  - intros H.
    destruct (vault_write_in_bounds e v user n f_pos Hok Hpos (proj1 Hop))
      as [r [p [v1 [Hw [Hok1 [Hs [Hk [Ho [Hp [Hcase _]]]]]]]]]].
    rewrite Hw in H. injection H as <- <- <-.
    split; [exact Hok1|]. split; [lia|]. repeat (split; [assumption|]).
    destruct (vault_write_used_space _ _ _ _ _ _ _ _ Hw)
      as [[_ Hu] | [tc [got [_ [_ [_ Hu]]]]]]; rewrite Hu; lia.
Qed.

(** Whatever sequence of [llseek], [read] and [write] calls processes
    make on an open file of a well-formed vault, starting at a position
    within the vault: as long as no call leaves the buffer, the vault
    stays well formed (so [used_space] never exceeds [size]), the
    position stays within the vault, [size], [key] and [owner] never
    change and [used_space] never decreases. *)
Theorem file_run_invariant calls : forall v f_pos pos' v',
  vault_ok v -> 0 <= f_pos <= size v ->
  Forall (fun c => file_op_ok (snd c)) calls ->
  file_run v f_pos calls = Some (pos', v') ->
  vault_ok v' /\ 0 <= pos' <= size v' /\
  size v' = size v /\ key v' = key v /\ owner v' = owner v /\
  used_space v <= used_space v'.
Proof.
  induction calls as [|[e op] rest IH]; intros v f_pos pos' v' Hok Hpos Hall H; simpl in H.
  - injection H as <- <-. split; [exact Hok|]. split; [exact Hpos|].
    repeat split; reflexivity || lia.
  - inversion Hall as [|? ? Hop Hrest]; subst. simpl in Hop.
    destruct (file_call e v f_pos op) as [[[r p] v1]|] eqn:Hc; [|discriminate].
    destruct (file_call_invariant _ _ _ _ _ _ _ Hok Hpos Hop Hc)
      as [Hok1 [Hp1 [Hs1 [Hk1 [Ho1 Hu1]]]]].
    destruct (IH v1 p pos' v' Hok1 Hp1 Hrest H) as [Hok' [Hp' [Hs' [Hk' [Ho' Hu']]]]].
    split; [exact Hok'|]. split; [exact Hp'|].
    repeat split; congruence || lia.
Qed.

Lemma file_run_invariant_witness :
  exists pos' v',
    file_run vault16 0
      [(alice, op_write hello8 8); (mallory, op_write hello8 8);
       (alice, op_llseek 3 SEEK_END); (alice, op_write hello8 8);
       (alice, op_llseek 2 SEEK_SET); (alice, op_read 100 3)]
    = Some (pos', v') /\
    vault_ok v' /\ 0 <= pos' <= size v' /\ size v' = 16.
Proof.
  destruct (file_run vault16 0
      [(alice, op_write hello8 8); (mallory, op_write hello8 8);
       (alice, op_llseek 3 SEEK_END); (alice, op_write hello8 8);
       (alice, op_llseek 2 SEEK_SET); (alice, op_read 100 3)])
    as [[pos' v']|] eqn:H; [|vm_compute in H; discriminate H].
  exists pos', v'. split; [reflexivity|].
  assert (Hok0 : vault_ok vault16).
  { constructor; simpl; try lia.
    - unfold MAX_DATA. lia.
    - eexists. split; reflexivity. }
  assert (Hpos0 : 0 <= 0 <= size vault16) by (simpl; lia).
  assert (Hall0 : Forall (fun c => file_op_ok (snd c))
      [(alice, op_write hello8 8); (mallory, op_write hello8 8);
       (alice, op_llseek 3 SEEK_END); (alice, op_write hello8 8);
       (alice, op_llseek 2 SEEK_SET); (alice, op_read 100 3)])
    by (repeat constructor; simpl; lia).
  destruct (file_run_invariant _ _ _ _ _ Hok0 Hpos0 Hall0 H) as [Hok [Hp [Hs _]]].
  split; [exact Hok|]. split; [exact Hp | exact Hs].
Defined.

(** ** The keystream, byte by byte *)






(** ** The control program *)

Lemma read_user_key_result line buffer :
  length buffer = Z.to_nat (KEYSIZE + 1) ->
  (1 <= len line <= KEYSIZE + 1 <->
   exists k, Svctl.read_user_key (Some line) buffer = Some k) /\
  forall k, Svctl.read_user_key (Some line) buffer = Some k ->
    length k = Z.to_nat (KEYSIZE + 1) /\
    nth (Z.to_nat KEYSIZE) k 0 = nth (Z.to_nat KEYSIZE) buffer 0 /\
    firstn (Z.to_nat KEYSIZE) k
    = firstn (Z.to_nat (len line - 1)) line
      ++ repeat 0 (Z.to_nat (KEYSIZE - (len line - 1))) /\
    forall idx, 0 <= idx < KEYSIZE ->
      key_at (firstn (Z.to_nat KEYSIZE) k) idx
      = if idx <? len line - 1 then nth (Z.to_nat idx) line 0 else 0.
Proof.
  intros Hb. unfold Svctl.read_user_key.
  assert (HK : KEYSIZE = 10) by reflexivity.
  assert (Hl : 0 <= len line) by (unfold len; lia).
  split.
  - split.
    + intros H.
      destruct (Z.ltb_spec KEYSIZE (len line - 1)); [lia|].
      destruct (Z.eqb_spec (len line) 0); [lia|]. eexists. reflexivity.
    + intros [k H].
      destruct (Z.ltb_spec KEYSIZE (len line - 1)); [discriminate|].
      destruct (Z.eqb_spec (len line) 0); [discriminate|]. lia.
  - intros k H.
    destruct (Z.ltb_spec KEYSIZE (len line - 1)); [discriminate|].
    destruct (Z.eqb_spec (len line) 0); [discriminate|].
    set (L := Z.to_nat (len line - 1)) in *.
    set (P := Z.to_nat (KEYSIZE - (len line - 1))) in *.
    set (K := Z.to_nat KEYSIZE) in *.
    remember (skipn K buffer) as T eqn:HT.
    assert (HTlen : length T = (length buffer - K)%nat)
      by (rewrite HT; apply length_skipn).
    assert (HT0 : nth 0 T 0 = nth K buffer 0).
    { rewrite HT. rewrite <- (firstn_skipn K buffer) at 2.
      rewrite app_nth2 by (rewrite length_firstn; subst K; lia).
      rewrite length_firstn. f_equal. subst K. lia. }
    clear HT.
    injection H as <-.
    assert (HL : length (firstn L line) = L).
    { rewrite length_firstn. subst L. unfold len in *. lia. }
    assert (Hhead : length (firstn L line ++ repeat 0 P) = K).
    { rewrite length_app, HL, repeat_length. subst L P K. lia. }
    assert (Hfirst : firstn K (firstn L line ++ repeat 0 P ++ T)
                     = firstn L line ++ repeat 0 P).
    { rewrite app_assoc, firstn_app, Hhead, Nat.sub_diag.
      rewrite firstn_O, app_nil_r. apply firstn_all2. lia. }
    split; [|split; [|split]].
    + rewrite app_assoc, length_app, Hhead, HTlen. subst K. lia.
    + rewrite app_assoc, app_nth2 by lia. rewrite Hhead, Nat.sub_diag. exact HT0.
    + exact Hfirst.
    + intros idx Hidx. unfold key_at. rewrite Hfirst.
      destruct (Z.ltb_spec idx (len line - 1)) as [Hlt | Hge].
      * rewrite app_nth1 by (subst L; lia).
        rewrite <- (firstn_skipn L line) at 2.
        rewrite app_nth1 by (subst L; lia). reflexivity.
      * rewrite app_nth2 by (subst L; lia).
        apply nth_repeat.
Qed.

(** [read_user_key] accepts a line of one to [KEYSIZE + 1] characters and
    nothing else.  The key the kernel then takes from the message is the
    line without its last character, whatever that character is, padded
    with zero bytes to [KEYSIZE]; byte [KEYSIZE] of the message buffer
    is left as it was. *)
Theorem read_user_key_pads_with_zero line buffer :
  length buffer = Z.to_nat (KEYSIZE + 1) ->
  (1 <= len line <= KEYSIZE + 1 <->
   exists k, Svctl.read_user_key (Some line) buffer = Some k) /\
  forall k, Svctl.read_user_key (Some line) buffer = Some k ->
    length k = Z.to_nat (KEYSIZE + 1) /\
    nth (Z.to_nat KEYSIZE) k 0 = nth (Z.to_nat KEYSIZE) buffer 0 /\
    firstn (Z.to_nat KEYSIZE) k
    = firstn (Z.to_nat (len line - 1)) line
      ++ repeat 0 (Z.to_nat (KEYSIZE - (len line - 1))) /\
    forall idx, 0 <= idx < KEYSIZE ->
      key_at (firstn (Z.to_nat KEYSIZE) k) idx
      = if idx <? len line - 1 then nth (Z.to_nat idx) line 0 else 0.
Proof.
  pose proof (read_user_key_result line buffer) as H.
  exact H.
Qed.

Lemma read_user_key_pads_with_zero_witness :
  exists k,
    Svctl.read_user_key (Some [65; 66; 67]) (repeat 7 11) = Some k /\
    firstn 10 k = [65; 66; 0; 0; 0; 0; 0; 0; 0; 0] /\
    nth 10 k 0 = 7.
Proof.
  destruct (read_user_key_pads_with_zero [65; 66; 67] (repeat 7 11) eq_refl)
    as [[Hacc _] Hkey].
  destruct Hacc as [k Hk]; [unfold len, KEYSIZE; simpl; lia|].
  exists k. split; [exact Hk|].
  destruct (Hkey k Hk) as [_ [Hlast [Hfirst _]]].
  split; [exact Hfirst | exact Hlast].
Defined.



Lemma getopt_loop_done rest options r :
  Svctl.getopt_loop rest true options = Some r -> rest = [] /\ r = (true, options).
Proof.
  destruct rest as [|c rest]; simpl; [|discriminate].
  intros H. injection H as <-. split; reflexivity.
Qed.

Lemma parse_arguments_shape opts args options0 options :
  Svctl.parse_arguments opts args options0 = Some options ->
  exists c a,
    opts = [c] /\ args = [a] /\
    Svctl.at_end a = true /\ 0 <= Svctl.value a < N_VAULTS /\
    Svctl.vault_id options = Svctl.value a /\
    match c with
    | Svctl.opt_c p =>
        Svctl.at_end p = true /\ 1 <= Svctl.value p <= MAX_DATA /\
        Svctl.cmd options = Svctl.CREATE /\ Svctl.size options = Svctl.value p
    | Svctl.opt_k =>
        Svctl.cmd options = Svctl.CHANGE_KEY /\ Svctl.size options = Svctl.size options0
    | Svctl.opt_e =>
        Svctl.cmd options = Svctl.ERASE /\ Svctl.size options = Svctl.size options0
    | Svctl.opt_d =>
        Svctl.cmd options = Svctl.DELETE /\ Svctl.size options = Svctl.size options0
    | Svctl.opt_other => False
    end.
Proof.
  unfold Svctl.parse_arguments.
  destruct (Svctl.getopt_loop opts false options0) as [[parsed_cmd o1]|] eqn:Hloop;
    [|discriminate].
  destruct parsed_cmd; simpl negb; cbv iota; [|discriminate].
  destruct args as [|a [|a2 args]]; try discriminate.
  destruct (Svctl.at_end a) eqn:Hend; simpl negb; cbv iota; [|discriminate].
  destruct (Z.ltb_spec (Svctl.value a) 0) as [|H0]; [discriminate|].
  destruct (Z.ltb_spec Svctl.UINT_MAX (Svctl.value a)) as [|H1]; [discriminate|].
  destruct (Z.leb_spec N_VAULTS (Svctl.value a)) as [|H2]; [discriminate|].
  simpl orb. cbv iota. intros H. injection H as <-.
  assert (Hid : Svctl.value a mod 2 ^ 32 = Svctl.value a).
  { apply Z.mod_small. unfold N_VAULTS in H2. lia. }
  destruct opts as [|c rest]; simpl in Hloop; [discriminate|].
  exists c, a.
  destruct c as [p | | | |]; simpl in Hloop.
  - destruct (Svctl.at_end p) eqn:Hp; simpl in Hloop; [|discriminate].
    destruct (Z.ltb_spec (Svctl.value p) 1) as [|Hp1]; [discriminate|].
    destruct (Z.ltb_spec MAX_DATA (Svctl.value p)) as [|Hp2]; [discriminate|].
    simpl in Hloop. destruct (getopt_loop_done _ _ _ Hloop) as [-> Hr].
    injection Hr as ->. simpl.
    repeat split; try reflexivity; try assumption; try lia.
    apply to_ulong_small. unfold MAX_DATA in Hp2. lia.
  - destruct (getopt_loop_done _ _ _ Hloop) as [-> Hr]. injection Hr as ->. simpl.
    repeat split; try reflexivity; try assumption; lia.
  - destruct (getopt_loop_done _ _ _ Hloop) as [-> Hr]. injection Hr as ->. simpl.
    repeat split; try reflexivity; try assumption; lia.
  - destruct (getopt_loop_done _ _ _ Hloop) as [-> Hr]. injection Hr as ->. simpl.
    repeat split; try reflexivity; try assumption; lia.
  - discriminate.
Qed.



(** Every request [main] hands to [ioctl] carries one of the command
    codes 0, 1, 5 and 3 and the number of a vault that exists, so the
    kernel never answers it from its test of the vault number or from the
    [default] branch of its [switch]. *)
Theorem main_sends_known_requests opts args open_ok input stack c msg e vaults :
  Svctl.main opts args open_ok input stack = Some (c, msg) ->
  (c = 0 \/ c = 1 \/ c = 5 \/ c = 3) /\
  0 <= mdevice msg < N_VAULTS /\
  (N_VAULTS <=? mdevice msg) = false /\
  (forall v, nth_error vaults (Z.to_nat (mdevice msg)) = Some v ->
     ioctl_handler e c msg vaults
     = let (r, v1) := down_sem e v in
       if negb (r =? 0)
       then Some (- ERESTARTSYS, store vaults (Z.to_nat (mdevice msg)) (up_sem v1))
       else match ioctl_switch e c msg v1 with
            | None => None
            | Some (ret, v2) => Some (ret, store vaults (Z.to_nat (mdevice msg)) v2)
            end).
Proof.
  unfold Svctl.main.
  destruct (Svctl.parse_arguments opts args _) as [options|] eqn:Hparse; [|discriminate].
  destruct (parse_arguments_shape _ _ _ _ Hparse)
    as [o [a [_ [_ [_ [Hrange [Hid _]]]]]]].
  destruct open_ok; simpl negb; cbv iota; [|discriminate].
  assert (Hdev : Svctl.to_uint8 (Svctl.vault_id options) = Svctl.value a).
  { rewrite Hid. unfold Svctl.to_uint8. apply Z.mod_small.
    unfold N_VAULTS in Hrange. lia. }
  intros H.
  assert (Hres : (c = 0 \/ c = 1 \/ c = 5 \/ c = 3) /\ mdevice msg = Svctl.value a).
  { destruct (Svctl.cmd options);
      unfold Svctl.sv_create, Svctl.sv_change_key, Svctl.sv_erase, Svctl.sv_delete in H;
      try (destruct (Svctl.read_user_key input (mkey stack)); [|discriminate]);
      injection H as <- <-; simpl; rewrite Hdev; auto. }
  destruct Hres as [Hc Hm]. rewrite Hm.
  split; [exact Hc|]. split; [exact Hrange|].
  assert (Hleb : (N_VAULTS <=? Svctl.value a) = false) by (apply Z.leb_gt; lia).
  split; [exact Hleb|].
  intros v Hv. unfold ioctl_handler. rewrite Hm, Hleb, Hv. reflexivity.
Qed.

Lemma main_sends_known_requests_witness :
  exists msg,
    Svctl.main [Svctl.opt_e] [Svctl.mk_strtol 3 true] true None msg16 = Some (5, msg) /\
    mdevice msg = 3.
Proof.
  eexists. split; [reflexivity|].
  destruct (main_sends_known_requests [Svctl.opt_e] [Svctl.mk_strtol 3 true] true None
              msg16 5 _ alice mod_init eq_refl) as [_ [Hdev _]].
  simpl in *. reflexivity.
Defined.

(** A size that [parse_arguments] accepts reaches the kernel through a
    [uint16_t] parameter of [sv_create]: the message carries the size
    modulo [2 ^ 16].  A multiple of [2 ^ 16], [MAX_DATA] included, makes
    the kernel refuse the request with [-EINVAL]; any other size creates
    a vault of the size modulo [2 ^ 16]. *)
Theorem svctl_create_truncates_size p a input stack c msg e vaults v :
  Svctl.main [Svctl.opt_c p] [a] true input stack = Some (c, msg) ->
  nth_error vaults (Z.to_nat (Svctl.value a)) = Some v ->
  0 < sem v -> in_use v = 0 ->
  cdev_alloc_ok e = true -> cdev_add_ok e = true -> kmalloc_ok e = true ->
  c = 0 /\ mdevice msg = Svctl.value a /\
  1 <= Svctl.value p <= MAX_DATA /\
  msize msg = Svctl.value p mod 2 ^ 16 /\
  (Svctl.value p mod 2 ^ 16 = 0 ->
   ioctl_handler e c msg vaults = Some (- EINVAL, vaults)) /\
  (Svctl.value p mod 2 ^ 16 <> 0 ->
   exists v',
     ioctl_handler e c msg vaults
     = Some (0, store vaults (Z.to_nat (Svctl.value a)) v') /\
     vault_ok v' /\ size v' = Svctl.value p mod 2 ^ 16).
Proof.
  intros Hmain Hv Hsem Hfree Ha Hb Hk.
  unfold Svctl.main in Hmain.
  destruct (Svctl.parse_arguments _ _ _) as [options|] eqn:Hparse; [|discriminate].
  destruct (parse_arguments_shape _ _ _ _ Hparse)
    as [o [a0 [Ho [Ha0 [_ [Hrange [Hid Hcmd]]]]]]].
  injection Ho as <-. injection Ha0 as <-.
  destruct Hcmd as [_ [Hsize [Hc Hs]]].
  simpl negb in Hmain. cbv iota in Hmain. rewrite Hc in Hmain.
  unfold Svctl.sv_create in Hmain.
  destruct (Svctl.read_user_key input (mkey stack)) as [k|]; [|discriminate].
  injection Hmain as <- <-.
  assert (Hdev : Svctl.to_uint8 (Svctl.vault_id options) = Svctl.value a).
  { rewrite Hid. unfold Svctl.to_uint8. apply Z.mod_small.
    unfold N_VAULTS in Hrange. lia. }
  simpl mdevice. simpl msize. rewrite Hdev, Hs. unfold Svctl.to_uint16.
  split; [reflexivity|]. split; [reflexivity|]. split; [exact Hsize|].
  split; [reflexivity|].
  set (m := mk_msg k (Svctl.value p mod 2 ^ 16) (Svctl.value a)).
  assert (Hm : 0 <= mdevice m < N_VAULTS) by exact Hrange.
  assert (Hmod : 0 <= Svctl.value p mod 2 ^ 16 < 2 ^ 16)
    by (apply Z.mod_pos_bound; lia).
  split.
  - intros Hz.
    rewrite (ioctl_handler_free_sem e 0 m vaults v Hm Hv Hsem).
    unfold ioctl_switch. simpl Z.eqb. cbv iota. simpl in_use.
    rewrite Hfree. simpl negb. cbv iota.
    replace ((msize m <? 1) || (MAX_DATA <? msize m)) with true.
    2:{ symmetry. apply orb_true_iff. left. apply Z.ltb_lt.
        change (msize m) with (Svctl.value p mod 2 ^ 16). lia. }
    rewrite up_sem_down, set_sem_same.
    change (mdevice m) with (Svctl.value a).
    rewrite (store_same _ _ _ Hv). reflexivity.
  - intros Hnz.
    destruct (create_on_free_slot e m vaults v Hm Hv Hsem Hfree)
      as [v' [Hc' [Hok' [_ [_ [Hs' _]]]]]]; try assumption.
    + simpl msize. unfold MAX_DATA. lia.
    + exists v'. split; [exact Hc'|]. split; [exact Hok' | exact Hs'].
Qed.

Lemma svctl_create_truncates_size_witness :
  exists msg,
    Svctl.main [Svctl.opt_c (Svctl.mk_strtol 65536 true)] [Svctl.mk_strtol 0 true]
      true (Some [65; 66; 10]) msg16 = Some (0, msg) /\
    msize msg = 0 /\
    ioctl_handler alice 0 msg mod_init = Some (- EINVAL, mod_init).
Proof.
  eexists. split; [reflexivity|].
  destruct (svctl_create_truncates_size (Svctl.mk_strtol 65536 true)
              (Svctl.mk_strtol 0 true) (Some [65; 66; 10]) msg16 0 _ alice mod_init
              (init_vault 0) eq_refl eq_refl eq_refl eq_refl eq_refl eq_refl eq_refl)
    as [_ [_ [_ [Hs [Hz _]]]]].
  split; [exact Hs | apply Hz; reflexivity].
Defined.

(** ** The array of vaults under any control commands *)

Lemma vault_ok_set_sem v : vault_ok v -> up_sem (set_sem (sem v - 1) v) = v.
Proof. intros _. rewrite up_sem_down. apply set_sem_same. Qed.

Lemma ioctl_switch_keeps_state e cmd msg v :
  vault_free v \/ vault_ok v ->
  exists ret v',
    ioctl_switch e cmd msg (set_sem (sem v - 1) v) = Some (ret, v') /\
    (vault_free v' \/ vault_ok v').
Proof.
  intros Hst.
  assert (Hsame : up_sem (set_sem (sem v - 1) v) = v)
    by (rewrite up_sem_down; apply set_sem_same).
  assert (Hsem : 0 < sem v).
  { destruct Hst as [[_ [_ [_ [_ H]]]] | H]; [exact H | apply (ok_sem v H)]. }
  unfold ioctl_switch. simpl in_use. simpl owner.
  destruct (Z.eqb_spec cmd 0) as [C0 | C0].
  { destruct (Z.eqb_spec (in_use v) 0) as [Hfree | Huse]; simpl negb; cbv iota.
    2:{ rewrite Hsame. eauto. }
    destruct ((msize msg <? 1) || (MAX_DATA <? msize msg)) eqn:Hsz.
    { rewrite Hsame. eauto. }
    apply orb_false_iff in Hsz. destruct Hsz as [Hs1 Hs2].
    apply Z.ltb_ge in Hs1. apply Z.ltb_ge in Hs2.
    pose proof Hst as Hst0.
    destruct Hst as [[_ [Hd [Hs [Hu _]]]] | Hok];
      [|exfalso; apply (ok_in_use v Hok); exact Hfree].
    destruct (cdev_alloc_ok e); simpl negb; cbv iota.
    2:{ rewrite Hsame. eauto. }
    destruct (cdev_add_ok e); simpl negb; cbv iota.
    2:{ eexists _, _. split; [reflexivity|]. left.
        unfold vault_free. simpl. repeat split; try assumption. unfold up. lia. }
    destruct (kmalloc e (msize msg)); simpl negb; cbv iota.
    2:{ eexists _, _. split; [reflexivity|]. left.
        unfold vault_free. simpl. repeat split; try assumption. unfold up. lia. }
    eexists _, _. split; [reflexivity|]. right.
    constructor; simpl; try lia.
    - eexists. split; [reflexivity|]. rewrite len_repeat. lia.
    - unfold up. lia. }
  destruct (Z.eqb_spec cmd 1) as [C1 | C1].
  { destruct (Z.eqb_spec (in_use v) 0) as [Hfree | Huse].
    { rewrite Hsame. eauto. }
    destruct (negb (owner v =? get_current_uid e)).
    { rewrite Hsame. eauto. }
    destruct Hst as [[Hf _] | Hok]; [contradiction|].
    eexists _, _. split; [reflexivity|]. right.
    destruct Hok as [A B C D E]. constructor; simpl; try assumption. unfold up. lia. }
  destruct (Z.eqb_spec cmd 5) as [C5 | C5].
  { destruct (Z.eqb_spec (in_use v) 0) as [Hfree | Huse].
    { rewrite Hsame. eauto. }
    destruct (negb (owner v =? get_current_uid e)).
    { rewrite Hsame. eauto. }
    destruct Hst as [[Hf _] | Hok]; [contradiction|].
    destruct Hok as [A B C [d [Hd Hlen]] E].
    simpl data. simpl size. rewrite Hd. unfold memset_zero.
    replace (size v =? 0) with false by (symmetry; apply Z.eqb_neq; lia).
    replace (size v <=? len d) with true by (symmetry; apply Z.leb_le; lia).
    eexists _, _. split; [reflexivity|]. right.
    constructor; simpl; try assumption; try lia.
    - eexists. split; [reflexivity|].
      rewrite len_app, len_repeat. unfold len in *. rewrite length_skipn. lia.
    - unfold up. lia. }
  destruct (Z.eqb_spec cmd 3) as [C3 | C3].
  { destruct (Z.eqb_spec (in_use v) 0) as [Hfree | Huse].
    { rewrite Hsame. eauto. }
    destruct (negb (owner v =? get_current_uid e)).
    { rewrite Hsame. eauto. }
    eexists _, _. split; [reflexivity|]. left.
    unfold vault_free. simpl. repeat split; try reflexivity. unfold up. lia. }
  rewrite Hsame. eauto.
Qed.

Lemma Forall_store (P : vault_t -> Prop) (pool : list vault_t) : forall i w,
  Forall P pool -> P w -> Forall P (store pool i w).
Proof.
  induction pool as [|x rest IH]; intros [|i] w Hall Hw; simpl;
    inversion Hall; subst; constructor; auto.
Qed.

Lemma mod_init_vaults_ok : vaults_ok mod_init.
Proof.
  split; [reflexivity|].
  repeat constructor; left; unfold vault_free; simpl; repeat split; lia.
Qed.

Lemma ioctl_handler_keeps_vaults_ok e cmd msg vaults :
  vaults_ok vaults -> 0 <= mdevice msg ->
  exists ret vaults',
    ioctl_handler e cmd msg vaults = Some (ret, vaults') /\ vaults_ok vaults'.
Proof.
  intros [Hlen Hall] Hdev. unfold ioctl_handler.
  destruct (Z.leb_spec N_VAULTS (mdevice msg)) as [Hge | Hlt].
  { exists (- EINVAL), vaults. split; [reflexivity | split; assumption]. }
  destruct (nth_error vaults (Z.to_nat (mdevice msg))) as [v|] eqn:Hv.
  2:{ apply nth_error_None in Hv. lia. }
  assert (Hst : vault_free v \/ vault_ok v).
  { rewrite Forall_forall in Hall. apply Hall. apply (nth_error_In _ _ Hv). }
  assert (Hsem : 0 < sem v).
  { destruct Hst as [[_ [_ [_ [_ H]]]] | H]; [exact H | apply (ok_sem v H)]. }
  rewrite (down_sem_free e v Hsem). simpl negb. cbv iota.
  destruct (ioctl_switch_keeps_state e cmd msg v Hst) as [ret [v' [Hsw Hst']]].
  rewrite Hsw. exists ret, (store vaults (Z.to_nat (mdevice msg)) v').
  split; [reflexivity|]. split.
  - rewrite store_length. exact Hlen.
  - apply Forall_store; assumption.
Qed.

(** Starting from the array that [mod_init] leaves, or from any array of
    free and well-formed vaults, every sequence of control commands, with
    any command codes, messages, callers and failures of kernel services,
    runs without a memory fault and leaves an array of [N_VAULTS] vaults
    in which each vault is free or well formed: a vault has a buffer
    exactly when it is in use, the buffer then has [size] bytes, and
    [used_space] never exceeds [size] nor [size] the bound [MAX_DATA]. *)
Theorem ioctl_run_keeps_vaults_ok calls : forall vaults,
  vaults_ok vaults ->
  Forall (fun c => 0 <= mdevice (snd c)) calls ->
  exists vaults',
    ioctl_run vaults calls = Some vaults' /\
    vaults_ok vaults' /\
    forall v, In v vaults' ->
      (in_use v = 0 <-> data v = None) /\
      (forall d, data v = Some d -> len d = size v) /\
      0 <= used_space v <= size v /\ size v <= MAX_DATA.
Proof.
  induction calls as [|[[e cmd] msg] rest IH]; intros vaults Hok Hall.
  - exists vaults. split; [reflexivity|]. split; [exact Hok|].
    intros v Hin. destruct Hok as [_ Hf]. rewrite Forall_forall in Hf.
    destruct (Hf v Hin) as [[H1 [H2 [H3 [H4 H5]]]] | [A B C [d [Hd Hlen]] E]].
    + split; [split; intros; assumption|].
      split; [intros d Hd; congruence|]. unfold MAX_DATA. lia.
    + split; [split; intros H; [contradiction | congruence]|].
      split; [intros d1 Hd1; congruence | lia].
  - inversion Hall as [|? ? Hdev Hrest]; subst. simpl in Hdev.
    destruct (ioctl_handler_keeps_vaults_ok e cmd msg vaults Hok Hdev)
      as [ret [vaults1 [Hh Hok1]]].
    simpl. rewrite Hh. apply IH; assumption.
Qed.

Lemma ioctl_run_keeps_vaults_ok_witness :
  exists vaults',
    ioctl_run mod_init
      [(alice, 0, msg16); (alice_no_memory, 0, mk_msg demo_key 32 1);
       (mallory, 3, msg16); (alice, 5, msg16); (alice, 7, msg16);
       (alice, 3, msg16); (mallory, 0, msg10)]
    = Some vaults' /\
    vaults_ok vaults'.
Proof.
  destruct (ioctl_run_keeps_vaults_ok
      [(alice, 0, msg16); (alice_no_memory, 0, mk_msg demo_key 32 1);
       (mallory, 3, msg16); (alice, 5, msg16); (alice, 7, msg16);
       (alice, 3, msg16); (mallory, 0, msg10)] mod_init mod_init_vaults_ok)
    as [vaults' [H [Hok _]]].
  - repeat constructor; simpl; lia.
  - exists vaults'. split; [exact H | exact Hok].
Defined.
